(** * Stripe patterns on surfaces: isoline extraction and energy assembly

    A shallow embedding of [src/src/surface/stripe_patterns.cpp]
    (geometry-central), with the properties of its natural-language
    specification stated and settled against it.

    Every function of the source is written once, over a scalar type [D]
    standing for the C++ [double].  Two instances are provided:
    - [binary64]: IEEE 754 double precision, as the machine computes it
      (primitive floats), used to run the code on concrete inputs;
    - [exactR]: the real numbers, i.e. the same code in exact arithmetic,
      used where a property is about the mathematics behind the code. *)

From Stdlib Require Import String.
From Stdlib Require Import ZArith List Bool Lia.
From Stdlib Require Import Floats Uint63.
From Stdlib Require Import Reals Lra.
Import ListNotations.

Set Implicit Arguments.
(* Decimal literals such as 0.1 denote the nearest double, as in C++. *)
Set Warnings "-inexact-float".

(* ================================================================== *)
(** * Scalars *)
(* ================================================================== *)

(** The operations the source performs on [double] values. *)
Class Scalar (D : Type) : Type := {
  fromZ : Z -> D;            (* conversion of an int literal *)
  PI : D;                    (* the library constant PI *)
  add : D -> D -> D;
  sub : D -> D -> D;
  mul : D -> D -> D;
  div : D -> D -> D;
  opp : D -> D;
  eqb : D -> D -> bool;      (* operator== *)
  ltb : D -> D -> bool;      (* operator<  *)
  ceil : D -> D              (* std::ceil *)
}.

Declare Scope scalar_scope.
Delimit Scope scalar_scope with D.
Infix "+" := add : scalar_scope.
Infix "-" := sub : scalar_scope.
Infix "*" := mul : scalar_scope.
Infix "/" := div : scalar_scope.
Notation "- x" := (opp x) : scalar_scope.
Infix "==" := eqb (at level 70, no associativity) : scalar_scope.
Infix "<?" := ltb : scalar_scope.
Notation "x >? y" := (ltb y x) (only parsing) : scalar_scope.

(** The libm functions used by the energy stage. *)
Class Trig (D : Type) `{Scalar D} : Type := {
  cos : D -> D;
  sin : D -> D;
  atan2 : D -> D -> D;       (* std::atan2 y x *)
  sqrt : D -> D;
  roundToInt : D -> Z        (* std::round, then the conversion to int *)
}.
Arguments Trig D {_}.

(** ** IEEE 754 binary64 *)

Module Binary64.

(** An integer of magnitude below 2^63 as a double (exact below 2^53). *)
Definition ofZ (z : Z) : float :=
  let f := PrimFloat.of_uint63 (Uint63.of_Z (Z.abs z)) in
  if (z <? 0)%Z then PrimFloat.opp f else f.

(** Modelled from the spec: [std::ceil] of the C++ standard library, the
    least integral value not below its argument, exactly; zeros,
    infinities and NaN are returned unchanged, and a result of zero keeps
    the sign of the argument. *)
Definition ceil (x : float) : float :=
  match Prim2SF x with
  | S754_finite s m e =>
      if (0 <=? e)%Z then x
      else
        let n := if s then Z.neg m else Z.pos m in
        let q := (- ((- n) / 2 ^ (- e)))%Z in
        if (q =? 0)%Z then (if s then (-0)%float else 0%float) else ofZ q
  | _ => x
  end.

(** Modelled from the spec: the constant [PI] of the library's utilities,
    [3.1415926535897932384] read as a double. *)
Definition PI : float := 0x1.921fb54442d18p+1%float.

End Binary64.

#[export] Instance binary64 : Scalar float := {
  fromZ := Binary64.ofZ;
  PI := Binary64.PI;
  add := PrimFloat.add;
  sub := PrimFloat.sub;
  mul := PrimFloat.mul;
  div := PrimFloat.div;
  opp := PrimFloat.opp;
  eqb := PrimFloat.eqb;
  ltb := PrimFloat.ltb;
  ceil := Binary64.ceil
}.

(** ** Exact real arithmetic *)

Module Exact.

Definition eqb (a b : R) : bool := if Req_dec_T a b then true else false.
Definition ltb (a b : R) : bool := if Rlt_dec a b then true else false.

(** The least integer not below [x]. *)
Definition ceilZ (x : R) : Z := (1 - up (- x))%Z.
Definition ceil (x : R) : R := IZR (ceilZ x).

(** [std::atan2 y x]: the argument of the point (x, y), in (-pi, pi]. *)
Definition atan2 (y x : R) : R :=
  if Rlt_dec 0 x then atan (y / x)
  else if Rlt_dec x 0 then
    (if Rle_dec 0 y then atan (y / x) + Rtrigo1.PI
     else atan (y / x) - Rtrigo1.PI)%R
  else if Rlt_dec 0 y then (Rtrigo1.PI / 2)%R
  else if Rlt_dec y 0 then (- (Rtrigo1.PI / 2))%R
  else 0%R.

(** [std::round]: to the nearest integer, halfway cases away from zero. *)
Definition roundToInt (x : R) : Z :=
  if Rle_dec 0 x then (up (x + / 2) - 1)%Z
  else (- (up (- x + / 2) - 1))%Z.

End Exact.

#[export] Instance exactR : Scalar R := {
  fromZ := IZR;
  PI := Rtrigo1.PI;
  add := Rplus;
  sub := Rminus;
  mul := Rmult;
  div := Rdiv;
  opp := Ropp;
  eqb := Exact.eqb;
  ltb := Exact.ltb;
  ceil := Exact.ceil
}.

#[export] Instance exactTrig : Trig R := {
  cos := Rtrigo_def.cos;
  sin := Rtrigo_def.sin;
  atan2 := Exact.atan2;
  sqrt := R_sqrt.sqrt;
  roundToInt := Exact.roundToInt
}.

(* ================================================================== *)
(** * Modulo-2pi crossings *)
(* ================================================================== *)

Section Crossing.
Context {D : Type} `{Scalar D}.
Local Open Scope scalar_scope.

(** [2 * PI], as the source writes it. *)
Definition twoPI : D := fromZ 2 * PI.

(** [crossesModulo2Pi val1 val2 bary]: [Some bary] when the source returns
    [true] (having written [bary]), [None] when it returns [false]. *)
Definition crossesModulo2Pi (val1 val2 : D) : option D :=
  if val1 == val2 then None
  else if val1 <? val2 then
    let isoval := twoPI * ceil (val1 / twoPI) in
    if val2 >? isoval then Some ((isoval - val2) / (val1 - val2))
    else None
  else
    let isoval := twoPI * ceil (val2 / twoPI) in
    if val1 >? isoval then Some ((isoval - val2) / (val1 - val2))
    else None.

End Crossing.

(* ================================================================== *)
(** * The halfedge mesh *)
(* ================================================================== *)

(** Modelled from the spec: the halfedge mesh is an external collaborator
    (section 6); the source only navigates it.  Elements are the indices the
    library hands out.  Faces are numbered [0 .. nFaces-1]; the boundary
    loops, which the library also reaches through [Halfedge::face()], carry
    the indices from [nFaces] on. *)

Definition Halfedge := nat.
Definition Face := nat.
Definition Vertex := nat.
Definition Edge := nat.
Definition Corner := nat.

Record SurfaceMesh : Type := {
  nVertices : nat;
  nFaces : nat;
  nEdges : nat;
  nHalfedges : nat;
  heNext : Halfedge -> Halfedge;      (* h.next() *)
  heTwin : Halfedge -> Halfedge;      (* h.twin() *)
  heFace : Halfedge -> Face;          (* h.face() *)
  heVertex : Halfedge -> Vertex;      (* h.vertex() *)
  heEdge : Halfedge -> Edge;          (* h.edge() *)
  faceHalfedge : Face -> Halfedge;    (* f.halfedge() *)
  edgeHalfedge : Edge -> Halfedge     (* e.halfedge() *)
}.

Section MeshNavigation.
Variable mesh : SurfaceMesh.

Definition faces : list Face := seq 0 (nFaces mesh).
Definition edges : list Edge := seq 0 (nEdges mesh).
Definition vertices : list Vertex := seq 0 (nVertices mesh).

Definition isBoundaryLoop (f : Face) : bool := nFaces mesh <=? f.

(** The corner of a halfedge is the corner at its tail, inside its face;
    it has the index of the halfedge. *)
Definition corner (h : Halfedge) : Corner := h.

Definition tailVertex (h : Halfedge) : Vertex := heVertex mesh h.
Definition tipVertex (h : Halfedge) : Vertex := heVertex mesh (heNext mesh h).

Definition firstVertex (e : Edge) : Vertex := tailVertex (edgeHalfedge mesh e).
Definition secondVertex (e : Edge) : Vertex := tipVertex (edgeHalfedge mesh e).

Definition edgeIsBoundary (e : Edge) : bool :=
  isBoundaryLoop (heFace mesh (edgeHalfedge mesh e))
  || isBoundaryLoop (heFace mesh (heTwin mesh (edgeHalfedge mesh e))).

(** The halfedges met by following [next] from [cur] until [start] comes
    back, at most [n] of them. *)
Fixpoint orbit (start cur : Halfedge) (n : nat) : list Halfedge :=
  match n with
  | O => []
  | S k =>
      cur :: (if heNext mesh cur =? start then []
              else orbit start (heNext mesh cur) k)
  end.

(** [f.adjacentHalfedges()] *)
Definition adjacentHalfedges (f : Face) : list Halfedge :=
  orbit (faceHalfedge mesh f) (faceHalfedge mesh f) (nHalfedges mesh).

End MeshNavigation.

(* ================================================================== *)
(** * Outcomes *)
(* ================================================================== *)

(** What a call can do: return, throw [std::runtime_error], or (in the
    model only) use up the iteration bound given to a [while] loop. *)
Inductive outcome (A : Type) : Type :=
| Returned (a : A)
| Thrown (what : string)
| OutOfFuel.
Arguments Thrown {A} what.
Arguments OutOfFuel {A}.

(* ================================================================== *)
(** * Isoline extraction *)
(* ================================================================== *)

Record Isoline (D : Type) : Type := {
  barycenters : list (Halfedge * D);
  open : bool
}.

(** [FaceData<bool>] *)
Definition FaceFlags := Face -> bool.
Definition setFlag (v : FaceFlags) (f : Face) (b : bool) : FaceFlags :=
  fun g => if g =? f then b else v g.

Definition branchingError : string :=
  "Isolines should only branch out on singularities".

Section Isolines.
Context {D : Type} `{Scalar D}.
Variable mesh : SurfaceMesh.
Variable stripeValues : Corner -> D.
Variable stripesIndices fieldIndices : Face -> Z.

(** The variables of one trace (lines 299-304 of the source), with the
    two objects it shares with the enclosing loops: [visited] and
    [iso.open]. *)
Record Trace : Type := {
  isoPts : list (Halfedge * D);
  prevFace : Face;
  curFace : Face;
  done : bool;
  visited : FaceFlags;
  isoOpen : bool
}.

(** The inner [for] loop of a trace: the first halfedge of the face that
    does not lead back to [prev] and carries a crossing. *)
Fixpoint firstCrossing (prev : Face) (hes : list Halfedge)
  : option (Halfedge * D) :=
  match hes with
  | [] => None
  | he :: rest =>
      let oppFace := heFace mesh (heTwin mesh he) in
      if oppFace =? prev then firstCrossing prev rest
      else
        match crossesModulo2Pi (stripeValues (corner he))
                               (stripeValues (corner (heNext mesh he))) with
        | Some bary => Some (he, bary)
        | None => firstCrossing prev rest
        end
  end.

(** The condition of the [while] loop. *)
Definition tracing (t : Trace) : bool :=
  negb (isBoundaryLoop mesh (curFace t)) && negb (done t)
  && (stripesIndices (curFace t) =? 0)%Z
  && (fieldIndices (curFace t) =? 0)%Z.

(** The body of the [while] loop, for the seed face [f]. *)
Definition traceStep (f : Face) (t : Trace) : Trace :=
  let visited1 := setFlag (visited t) (curFace t) true in
  match firstCrossing (prevFace t) (adjacentHalfedges mesh (curFace t)) with
  | None =>
      {| isoPts := isoPts t; prevFace := prevFace t; curFace := curFace t;
         done := true; visited := visited1; isoOpen := isoOpen t |}
  | Some (he, bary) =>
      let oppFace := heFace mesh (heTwin mesh he) in
      if negb (isBoundaryLoop mesh oppFace) && visited1 oppFace then
        {| isoPts := isoPts t; prevFace := prevFace t; curFace := curFace t;
           done := true; visited := visited1;
           isoOpen := if oppFace =? f then false else isoOpen t |}
      else
        {| isoPts := isoPts t ++ [(he, bary)];
           prevFace := curFace t; curFace := oppFace;
           done := isBoundaryLoop mesh oppFace
                   || negb (stripesIndices oppFace =? 0)%Z
                   || negb (fieldIndices oppFace =? 0)%Z;
           visited := visited1; isoOpen := isoOpen t |}
  end.

(** The [while] loop, with a bound on its iterations. *)
Fixpoint trace (fuel : nat) (f : Face) (t : Trace) : option Trace :=
  if tracing t then
    match fuel with
    | O => None
    | S k => trace k f (traceStep f t)
    end
  else Some t.

(** A trace marks one more face at every iteration after the first, so
    it stops within this many iterations. *)
Definition traceFuel : nat := S (S (nFaces mesh)).

(** The variables of the loop over the halfedges of a seed face. *)
Record Seed : Type := {
  iso : Isoline D;
  nbOfPieces : Z;
  seedVisited : FaceFlags
}.

(** The body of the loop over the halfedges [h] of the seed face [f]. *)
Definition seedStep (f : Face) (s : Seed) (h : Halfedge) : option Seed :=
  match crossesModulo2Pi (stripeValues (corner h))
                         (stripeValues (corner (heNext mesh h))) with
  | None => Some s
  | Some bary =>
      match trace traceFuel f
              {| isoPts := [(h, bary)]; prevFace := f;
                 curFace := heFace mesh (heTwin mesh h); done := false;
                 visited := seedVisited s; isoOpen := open (iso s) |} with
      | None => None
      | Some t =>
          Some {| iso :=
                    {| barycenters :=
                         if (length (barycenters (iso s)) =? 0)
                         then barycenters (iso s) ++ rev (isoPts t)
                         else barycenters (iso s) ++ isoPts t;
                       open := isoOpen t |};
                  nbOfPieces := (nbOfPieces s + 1)%Z;
                  seedVisited := visited t |}
      end
  end.

Fixpoint seedLoop (f : Face) (s : Seed) (hes : list Halfedge)
  : option Seed :=
  match hes with
  | [] => Some s
  | h :: rest =>
      match seedStep f s h with
      | None => None
      | Some s' => seedLoop f s' rest
      end
  end.

(** One seed face: lines 290-336. *)
Definition traceFace (f : Face) (vis : FaceFlags) : option Seed :=
  seedLoop f
    {| iso := {| barycenters := []; open := true |};
       nbOfPieces := 0; seedVisited := setFlag vis f true |}
    (adjacentHalfedges mesh f).

(** The loop over the faces of the mesh. *)
Fixpoint faceLoop (fs : list Face) (vis : FaceFlags)
         (isolines : list (Isoline D)) : outcome (list (Isoline D)) :=
  match fs with
  | [] => Returned isolines
  | f :: rest =>
      if vis f || negb (stripesIndices f =? 0)%Z
         || negb (fieldIndices f =? 0)%Z
      then faceLoop rest vis isolines
      else
        match traceFace f vis with
        | None => OutOfFuel
        | Some s =>
            let isolines' :=
              if (0 <? nbOfPieces s)%Z then isolines ++ [iso s]
              else isolines in
            if (2 <? nbOfPieces s)%Z then Thrown branchingError
            else faceLoop rest (seedVisited s) isolines'
        end
  end.

Definition extractIsolinesFromStripePattern : outcome (list (Isoline D)) :=
  faceLoop (faces mesh) (fun _ => false) [].

(** The seed faces a run works through, in order, each with the number of
    exits found from it (the value of [nbOfPieces] when the loop over its
    halfedges ends); the run stops at the first seed with more than two. *)
Fixpoint seedExits (fs : list Face) (vis : FaceFlags) : list (Face * Z) :=
  match fs with
  | [] => []
  | f :: rest =>
      if vis f || negb (stripesIndices f =? 0)%Z
         || negb (fieldIndices f =? 0)%Z
      then seedExits rest vis
      else
        match traceFace f vis with
        | None => []
        | Some s =>
            (f, nbOfPieces s)
            :: (if (2 <? nbOfPieces s)%Z then []
                else seedExits rest (seedVisited s))
        end
  end.

Definition exitsPerSeed : list (Face * Z) :=
  seedExits (faces mesh) (fun _ => false).

(** Whether the crossing test succeeds on the edge of a halfedge; the
    halfedges of a face for which it does; their number. *)
Definition carriesCrossing (h : Halfedge) : bool :=
  match crossesModulo2Pi (stripeValues (corner h))
                         (stripeValues (corner (heNext mesh h))) with
  | Some _ => true
  | None => false
  end.

Definition crossingHalfedges (f : Face) : list Halfedge :=
  filter carriesCrossing (adjacentHalfedges mesh f).

Definition crossingCount (f : Face) : Z :=
  Z.of_nat (List.length (crossingHalfedges f)).

(** Where a trace has stopped, for the seed face [f] and the value [op] of
    [iso.open] when the trace began:
    - at a boundary loop;
    - at a singular face;
    - in a regular face where the crossing test fails on every halfedge
      whose opposite face is not the face the trace came from (the inner
      loop skips every halfedge leading back to that face);
    - in a regular face where the first halfedge, in the order of
      [adjacentHalfedges], that does not lead back and passes the crossing
      test leads into a face already visited: the only case that clears
      [iso.open], and only when that face is [f]. *)
Definition stoppedAt (f : Face) (op : bool) (t : Trace) : Prop :=
  (isBoundaryLoop mesh (curFace t) = true /\ isoOpen t = op)
  \/ (isBoundaryLoop mesh (curFace t) = false
      /\ (stripesIndices (curFace t) <> 0%Z
          \/ fieldIndices (curFace t) <> 0%Z)
      /\ isoOpen t = op)
  \/ (isBoundaryLoop mesh (curFace t) = false
      /\ stripesIndices (curFace t) = 0%Z /\ fieldIndices (curFace t) = 0%Z
      /\ (forall he,
            In he (adjacentHalfedges mesh (curFace t)) ->
            heFace mesh (heTwin mesh he) <> prevFace t ->
            crossesModulo2Pi (stripeValues (corner he))
                             (stripeValues (corner (heNext mesh he)))
            = None)
      /\ isoOpen t = op)
  \/ (isBoundaryLoop mesh (curFace t) = false
      /\ stripesIndices (curFace t) = 0%Z /\ fieldIndices (curFace t) = 0%Z
      /\ exists before he after bary,
           adjacentHalfedges mesh (curFace t) = before ++ he :: after
           /\ (forall h',
                 In h' before ->
                 heFace mesh (heTwin mesh h') = prevFace t
                 \/ crossesModulo2Pi (stripeValues (corner h'))
                                     (stripeValues (corner (heNext mesh h')))
                    = None)
           /\ heFace mesh (heTwin mesh he) <> prevFace t
           /\ crossesModulo2Pi (stripeValues (corner he))
                               (stripeValues (corner (heNext mesh he)))
              = Some bary
           /\ isBoundaryLoop mesh (heFace mesh (heTwin mesh he)) = false
           /\ visited t (heFace mesh (heTwin mesh he)) = true
           /\ isoOpen t
              = if heFace mesh (heTwin mesh he) =? f then false else op).

(** The claim that an isoline end lies at a boundary loop or at a singular
    face, for the crossing point at that end: the face beyond its
    halfedge. *)
Definition endsAtBoundaryOrSingularity (pair : Halfedge * D) : bool :=
  let beyond := heFace mesh (heTwin mesh (fst pair)) in
  isBoundaryLoop mesh beyond
  || negb (stripesIndices beyond =? 0)%Z
  || negb (fieldIndices beyond =? 0)%Z.

(** ** Invariants of the extraction *)

(** The number of faces of the mesh not yet marked. *)
Definition unvisited (vis : FaceFlags) : nat :=
  List.length (filter (fun f => negb (vis f)) (faces mesh)).

(** The current face is the one beyond the last crossing point. *)
Definition beyondLast (t : Trace) : Prop :=
  exists pts he bary,
    isoPts t = pts ++ [(he, bary)]
    /\ curFace t = heFace mesh (heTwin mesh he).

(** What holds of a trace before and after every iteration, for the seed
    face [f] and the value [op] of [iso.open] when the trace began. *)
Definition traceInv (f : Face) (op : bool) (t : Trace) : Prop :=
  beyondLast t
  /\ (tracing t = true -> isoOpen t = op)
  /\ (tracing t = false -> stoppedAt f op t).

(** A pair [(h, bary)] that a crossing test on the edge of [h] reported. *)
Definition crossingPoint (pair : Halfedge * D) : Prop :=
  crossesModulo2Pi (stripeValues (corner (fst pair)))
                   (stripeValues (corner (heNext mesh (fst pair))))
  = Some (snd pair).

(** An isoline with at least one point, all of them reported crossings. *)
Definition wellFormedIsoline (i : Isoline D) : Prop :=
  barycenters i <> [] /\ Forall crossingPoint (barycenters i).

(** What holds of the variables of a seed face between two halfedges. *)
Definition seedInv (s : Seed) : Prop :=
  (0 <= nbOfPieces s)%Z
  /\ ((0 < nbOfPieces s)%Z -> barycenters (iso s) <> [])
  /\ Forall crossingPoint (barycenters (iso s)).

(** A crossing point recorded on a halfedge of a regular face that is no
    boundary loop. *)
Definition fromRegularFace (pair : Halfedge * D) : Prop :=
  exists g : Face,
    isBoundaryLoop mesh g = false
    /\ stripesIndices g = 0%Z /\ fieldIndices g = 0%Z
    /\ In (fst pair) (adjacentHalfedges mesh g).

End Isolines.

Arguments Trace : clear implicits.
Arguments Seed : clear implicits.

(* ================================================================== *)
(** * Polyline extraction *)
(* ================================================================== *)

Record Vector3 (D : Type) : Type := { x3 : D; y3 : D; z3 : D }.

Section Polylines.
Context {D : Type} `{Scalar D}.
Local Open Scope scalar_scope.

(** Modelled from the spec: [double * Vector3] and [Vector3 + Vector3] of
    the library, componentwise. *)
Definition scale3 (s : D) (v : Vector3 D) : Vector3 D :=
  {| x3 := s * x3 v; y3 := s * y3 v; z3 := s * z3 v |}.
Definition add3 (u v : Vector3 D) : Vector3 D :=
  {| x3 := x3 u + x3 v; y3 := y3 u + y3 v; z3 := z3 u + z3 v |}.

Variable mesh : SurfaceMesh.
Variable vertexPositions : Vertex -> Vector3 D.

(** The output buffers and the running index [i]. *)
Record Soup : Type := {
  points : list (Vector3 D);
  polyEdges : list (Z * Z);
  index : Z
}.

Definition isoPoint (pair : Halfedge * D) : Vector3 D :=
  let h := fst pair in
  let bary := snd pair in
  add3 (scale3 bary (vertexPositions (tailVertex mesh h)))
       (scale3 (fromZ 1 - bary) (vertexPositions (tipVertex mesh h))).

(** The body of the loop over the barycenters of one isoline of [size]
    barycenters whose first point has index [start]. *)
Definition pointStep (start : Z) (size : nat) (s : Soup)
           (pair : Halfedge * D) : Soup :=
  let i := index s in
  {| points := points s ++ [isoPoint pair];
     polyEdges :=
       if (i <? start + Z.of_nat size - 1)%Z
       then polyEdges s ++ [(i, (i + 1)%Z)]
       else polyEdges s;
     index := (i + 1)%Z |}.

(** The body of the loop over the isolines. *)
Definition isolineStep (s : Soup) (isoline : Isoline D) : Soup :=
  let start := index s in
  let s' := fold_left (pointStep start (length (barycenters isoline)))
                      (barycenters isoline) s in
  if negb (open isoline)
  then {| points := points s';
          polyEdges := polyEdges s' ++ [((index s' - 1)%Z, start)];
          index := index s' |}
  else s'.

Definition polylines (isolines : list (Isoline D))
  : list (Vector3 D) * list (Z * Z) :=
  let s := fold_left isolineStep isolines
             {| points := []; polyEdges := []; index := 0 |} in
  (points s, polyEdges s).

Definition extractPolylinesFromStripePattern
           (values : Corner -> D) (stripesIndices fieldIndices : Face -> Z)
  : outcome (list (Vector3 D) * list (Z * Z)) :=
  match extractIsolinesFromStripePattern mesh values
          stripesIndices fieldIndices with
  | Returned isolines => Returned (polylines isolines)
  | Thrown what => Thrown what
  | OutOfFuel => OutOfFuel
  end.

(** The number of barycenters of an isoline, as an integer. *)
Definition size (i : Isoline D) : Z := Z.of_nat (List.length (barycenters i)).

(** The total number of barycenters over a list of isolines. *)
Definition totalBarycenters (isolines : list (Isoline D)) : Z :=
  fold_right (fun i acc => (size i + acc)%Z) 0%Z isolines.

(** The edge count of the specification: barycenters - 1 for an open
    isoline, barycenters for a closed one. *)
Definition expectedEdges (isolines : list (Isoline D)) : Z :=
  fold_right (fun i acc => ((if open i then size i - 1 else size i) + acc)%Z)
             0%Z isolines.

(** The edges of the specification, written out: [m] consecutive edges
    from the index [i] on; for an isoline whose first point has index
    [start], the edges between its consecutive points and, when it is
    closed, the edge from its last point back to its first; for a list of
    isolines, these one after the other. *)
Fixpoint chain (i : Z) (m : nat) : list (Z * Z) :=
  match m with
  | O => []
  | S m' => (i, (i + 1)%Z) :: chain (i + 1)%Z m'
  end.

Definition isolineEdges (start : Z) (i : Isoline D) : list (Z * Z) :=
  chain start (List.length (barycenters i) - 1)
  ++ (if open i then [] else [((start + size i - 1)%Z, start)]).

Fixpoint edgeList (start : Z) (isolines : list (Isoline D)) : list (Z * Z) :=
  match isolines with
  | [] => []
  | i :: rest => isolineEdges start i ++ edgeList (start + size i)%Z rest
  end.

End Polylines.

Arguments Soup : clear implicits.

(* ================================================================== *)
(** * Plane vectors, geometry and sparse matrices *)
(* ================================================================== *)

Record Vector2 (D : Type) : Type := { x2 : D; y2 : D }.

Section Vector2Ops.
Context {D : Type} `{Trig D}.
Local Open Scope scalar_scope.

(** Modelled from the spec: the operations of the library's [Vector2],
    a complex number in the tangent plane. *)
Definition fromAngle (theta : D) : Vector2 D :=
  {| x2 := cos theta; y2 := sin theta |}.
Definition arg (v : Vector2 D) : D := atan2 (y2 v) (x2 v).
Definition dot (u v : Vector2 D) : D := x2 u * x2 v + y2 u * y2 v.
Definition cmul (u v : Vector2 D) : Vector2 D :=
  {| x2 := x2 u * x2 v - y2 u * y2 v; y2 := x2 u * y2 v + y2 u * x2 v |}.
Definition scale2 (s : D) (v : Vector2 D) : Vector2 D :=
  {| x2 := s * x2 v; y2 := s * y2 v |}.
Definition timesEq (v : Vector2 D) (s : D) : Vector2 D :=
  {| x2 := x2 v * s; y2 := y2 v * s |}.
Definition divScalar (v : Vector2 D) (s : D) : Vector2 D :=
  {| x2 := x2 v / s; y2 := y2 v / s |}.
Definition cdiv (u v : Vector2 D) : Vector2 D :=
  let denom := x2 v * x2 v + y2 v * y2 v in
  divScalar {| x2 := x2 u * x2 v + y2 u * y2 v;
               y2 := y2 u * x2 v - x2 u * y2 v |} denom.
Definition conj (v : Vector2 D) : Vector2 D :=
  {| x2 := x2 v; y2 := - y2 v |}.
Definition normalize (v : Vector2 D) : Vector2 D :=
  divScalar v (sqrt (x2 v * x2 v + y2 v * y2 v)).

End Vector2Ops.

(** Modelled from the spec: the quantities the geometry collaborator
    serves on demand (section 6); the [require...] calls only make sure
    they are there. *)
Record Geometry (D : Type) : Type := {
  mesh : SurfaceMesh;
  edgeLengths : Edge -> D;
  vertexIndices : Vertex -> nat;
  halfedgeVectorsInVertex : Halfedge -> Vector2 D;
  transportVectorsAlongHalfedge : Halfedge -> Vector2 D;
  halfedgeCotanWeights : Halfedge -> D;
  vertexDualAreas : Vertex -> D
}.

(** Modelled from the spec: sparse matrices built from (row, col, value)
    triplets (section 6).  A matrix is its dimensions and its coefficients;
    [setFromTriplets] sums the values given for one position, in the order
    they were given, and a position never given holds zero. *)
Record SparseMatrix (D : Type) : Type := {
  rows : Z;
  cols : Z;
  coeff : Z -> Z -> D
}.

Definition Triplet (D : Type) : Type := (Z * Z * D)%type.
Definition tr {D : Type} (r c : Z) (v : D) : Triplet D := (r, c, v).

Section Sparse.
Context {D : Type} `{Scalar D}.
Local Open Scope scalar_scope.

Definition tripletAt (r c : Z) (t : Triplet D) : bool :=
  ((fst (fst t) =? r) && (snd (fst t) =? c))%Z.

Definition sumValues (vs : list D) : D :=
  match vs with
  | [] => fromZ 0
  | v :: rest => fold_left add rest v
  end.

Definition setFromTriplets (n m : Z) (ts : list (Triplet D))
  : SparseMatrix D :=
  {| rows := n; cols := m;
     coeff := fun r c => sumValues (map snd (filter (tripletAt r c) ts)) |}.

Definition setIdentity (n m : Z) : SparseMatrix D :=
  {| rows := n; cols := m;
     coeff := fun r c =>
       if ((r =? c) && (0 <=? r) && (r <? n) && (r <? m))%Z
       then fromZ 1 else fromZ 0 |}.

Definition scaleMatrix (s : D) (A : SparseMatrix D) : SparseMatrix D :=
  {| rows := rows A; cols := cols A; coeff := fun r c => s * coeff A r c |}.

Definition addMatrix (A B : SparseMatrix D) : SparseMatrix D :=
  {| rows := rows A; cols := cols A;
     coeff := fun r c => coeff A r c + coeff B r c |}.

Definition transpose (A : SparseMatrix D) : SparseMatrix D :=
  {| rows := cols A; cols := rows A; coeff := fun r c => coeff A c r |}.

(** Two matrices are equal when they have the same shape and the same
    coefficients. *)
Definition matrixEq (A B : SparseMatrix D) : Prop :=
  rows A = rows B /\ cols A = cols B /\
  forall r c, coeff A r c = coeff B r c.

(** The values given for a position, in the order they were given. *)
Definition valuesAt (r c : Z) (ts : list (Triplet D)) : list D :=
  map snd (filter (tripletAt r c) ts).

(** A list of triplets gives each position and its mirror image the same
    values in the same order. *)
Definition mirrored (ts : list (Triplet D)) : Prop :=
  forall r c, valuesAt r c ts = valuesAt c r ts.

(** The literal [1e-4]. *)
Definition shift : D := fromZ 1 / fromZ 10000.

End Sparse.

(* ================================================================== *)
(** * The one-form and the energy matrix *)
(* ================================================================== *)

(** The [bool] locals whose address the source takes, and the pointers to
    them: [None] is [nullptr]. *)
Inductive Local : Type :=
| crossesSheet | crossesSheetsIJ | crossesSheetsJK | crossesSheetsKI.

Definition Pointer := option Local.

(** The values of the locals; [None] for one not yet assigned. *)
Definition Frame := Local -> option bool.
Definition noLocals : Frame := fun _ => None.

Definition sameLocal (a b : Local) : bool :=
  match a, b with
  | crossesSheet, crossesSheet | crossesSheetsIJ, crossesSheetsIJ
  | crossesSheetsJK, crossesSheetsJK | crossesSheetsKI, crossesSheetsKI => true
  | _, _ => false
  end.

Definition assign (fr : Frame) (p : Local) (b : bool) : Frame :=
  fun q => if sameLocal q p then Some b else fr q.

Section Energy.
Context {D : Type} `{Trig D}.
Local Open Scope scalar_scope.

Variable geometry : Geometry D.
Variable directionField : Vertex -> Vector2 D.

Let msh := mesh geometry.

(** [computeOmega]: the value returned and the frame after the call, or
    [None] when the call writes through a null pointer (undefined
    behaviour). *)
Definition computeOmega (frequencies : Vertex -> D) (e : Edge)
           (crossesSheets : Pointer) (fr : Frame) : option (D * Frame) :=
  let Xi := fromAngle (arg (directionField (firstVertex msh e)) / fromZ 2) in
  let Xj := fromAngle (arg (directionField (secondVertex msh e)) / fromZ 2) in
  let rij := transportVectorsAlongHalfedge geometry (edgeHalfedge msh e) in
  let s := if dot (cmul rij Xi) Xj >? fromZ 0 then fromZ 1 else fromZ (-1) in
  match crossesSheets with
  | None => None
  | Some p =>
      let fr' := assign fr p (s <? fromZ 0) in
      let lij := edgeLengths geometry e in
      let phiI := arg Xi in
      let phiJ := arg (scale2 s Xj) in
      let thetaI :=
        arg (halfedgeVectorsInVertex geometry (edgeHalfedge msh e)) in
      let thetaJ := thetaI + arg rij in
      let omegaIJ :=
        (lij / fromZ 2)
        * (frequencies (firstVertex msh e) * cos (phiI - thetaI)
           + frequencies (secondVertex msh e) * cos (phiJ - thetaJ)) in
      Some (omegaIJ, fr')
  end.

Variable branchIndices : Face -> Z.

(** The cotan weight of an edge: lines 66-73. *)
Definition cotanWeight (e : Edge) : D :=
  let h := edgeHalfedge msh e in
  let w := fromZ 0 in
  let w := if (branchIndices (heFace msh h) =? 0)%Z
           then w + halfedgeCotanWeights geometry h else w in
  let w := if negb (edgeIsBoundary msh e)
              && (branchIndices (heFace msh (heTwin msh h)) =? 0)%Z
           then w + halfedgeCotanWeights geometry (heTwin msh h) else w in
  w.

(** The one or two triangles incident to an edge, each named by the
    halfedge of the edge that lies in it: the second exists when the edge
    is not on the boundary. *)
Definition incidentTriangles (e : Edge) : list Halfedge :=
  let h := edgeHalfedge msh e in
  h :: (if edgeIsBoundary msh e then []
        else [heTwin msh h]).

(** The weight in the words of the specification: the sum of the cotan
    weights of the incident triangles whose branch index is 0. *)
Definition cotanWeightSum (e : Edge) : D :=
  fold_left add
    (map (halfedgeCotanWeights geometry)
         (filter (fun h => (branchIndices (heFace msh h) =? 0)%Z)
                 (incidentTriangles e)))
    (fromZ 0).

(** The four matrix indices an edge writes to: the two channels of each
    of its endpoints. *)
Definition edgeBlock (e : Edge) (r : Z) : Prop :=
  let h := edgeHalfedge msh e in
  let i := (2 * Z.of_nat (vertexIndices geometry
                            (heVertex msh h)))%Z in
  let j := (2 * Z.of_nat (vertexIndices geometry
                            (heVertex msh
                               (heTwin msh h))))%Z in
  r = i \/ r = (i + 1)%Z \/ r = j \/ r = (j + 1)%Z.

(** The triplets one edge adds: the body of the loop of
    [buildVertexEnergyMatrix]. *)
Definition edgeTriplets (frequencies : Vertex -> D) (e : Edge)
  : option (list (Triplet D)) :=
  match computeOmega frequencies e (Some crossesSheet) noLocals with
  | None => None
  | Some (omegaIJ, fr) =>
      match fr crossesSheet with
      | None => None
      | Some crosses =>
          let w := cotanWeight e in
          let h := edgeHalfedge msh e in
          let i := (2 * Z.of_nat (vertexIndices geometry (heVertex msh h)))%Z in
          let j := (2 * Z.of_nat
                          (vertexIndices geometry
                             (heVertex msh (heTwin msh h))))%Z in
          let rij := scale2 w (fromAngle omegaIJ) in
          let rij' := if crosses then timesEq rij (fromZ (-1)) else rij in
          Some
            ([ tr (i + 0) (i + 0) w; tr (i + 1) (i + 1) w;
               tr (j + 0) (j + 0) w; tr (j + 1) (j + 1) w;
               tr (i + 0) (j + 0) (- x2 rij); tr (i + 1) (j + 0) (y2 rij);
               tr (j + 0) (i + 0) (- x2 rij); tr (j + 0) (i + 1) (y2 rij);
               tr (i + 0) (j + 1) (- y2 rij'); tr (i + 1) (j + 1) (- x2 rij');
               tr (j + 1) (i + 0) (- y2 rij');
               tr (j + 1) (i + 1) (- x2 rij') ])
      end
  end.

(** The loop over the edges, appending to [triplets]. *)
Fixpoint edgeLoop (frequencies : Vertex -> D) (es : list Edge)
         (triplets : list (Triplet D)) : option (list (Triplet D)) :=
  match es with
  | [] => Some triplets
  | e :: rest =>
      match edgeTriplets frequencies e with
      | None => None
      | Some ts => edgeLoop frequencies rest (triplets ++ ts)
      end
  end.

Definition buildVertexEnergyMatrix (frequencies : Vertex -> D)
  : option (SparseMatrix D) :=
  match edgeLoop frequencies (edges msh) [] with
  | None => None
  | Some triplets =>
      let n := (2 * Z.of_nat (nVertices msh))%Z in
      let vertexEnergyMatrix := setFromTriplets n n triplets in
      let eye := setIdentity n n in
      Some (addMatrix vertexEnergyMatrix (scaleMatrix shift eye))
  end.

Definition computeRealVertexMassMatrix : SparseMatrix D :=
  let n := (2 * Z.of_nat (nVertices msh))%Z in
  setFromTriplets n n
    (flat_map (fun v =>
                 let area := vertexDualAreas geometry v in
                 let i := Z.of_nat (vertexIndices geometry v) in
                 [ tr (2 * i) (2 * i) area;
                   tr (2 * i + 1) (2 * i + 1) area ])
              (vertices msh)).

(** Modelled from the spec: the generalized eigensolver (section 4.4),
    an external collaborator returning a dense vector. *)
Variable smallestEigenvectorPositiveDefinite :
  SparseMatrix D -> SparseMatrix D -> (Z -> D).

Definition computeParameterization (frequencies : Vertex -> D)
  : option (Vertex -> Vector2 D) :=
  match buildVertexEnergyMatrix frequencies with
  | None => None
  | Some energyMatrix =>
      let massMatrix := computeRealVertexMassMatrix in
      let solution :=
        smallestEigenvectorPositiveDefinite energyMatrix massMatrix in
      Some (fun v =>
              normalize
                {| x2 := solution
                           (2 * Z.of_nat (vertexIndices geometry v))%Z;
                   y2 := solution
                           (2 * Z.of_nat (vertexIndices geometry v) + 1)%Z |})
  end.

(** [CornerData] and [FaceData] being filled. *)
Definition setAt {A : Type} (data : nat -> A) (k : nat) (a : A) : nat -> A :=
  fun k' => if k' =? k then a else data k'.

(** One face of [computeTextureCoordinates]: the loop body, writing into
    [textureCoordinates] and [paramIndices]. *)
Definition faceCoordinates (frequencies : Vertex -> D)
           (parameterization : Vertex -> Vector2 D) (f : Face)
           (out : (Corner -> D) * (Face -> Z))
  : option ((Corner -> D) * (Face -> Z)) :=
  let hij := faceHalfedge msh f in
  let hjk := heNext msh hij in
  let hki := heNext msh hjk in
  let psiI := parameterization (heVertex msh hij) in
  let psiJ := parameterization (heVertex msh hjk) in
  let psiK := parameterization (heVertex msh hki) in
  let cIJ := if negb (edgeHalfedge msh (heEdge msh hij) =? hij)
             then fromZ (-1) else fromZ 1 in
  let cJK := if negb (edgeHalfedge msh (heEdge msh hjk) =? hjk)
             then fromZ (-1) else fromZ 1 in
  let cKI := if negb (edgeHalfedge msh (heEdge msh hki) =? hki)
             then fromZ (-1) else fromZ 1 in
  match computeOmega frequencies (heEdge msh hij)
                     (Some crossesSheetsIJ) noLocals with
  | None => None
  | Some (oIJ, fr1) =>
  match computeOmega frequencies (heEdge msh hjk)
                     (Some crossesSheetsJK) fr1 with
  | None => None
  | Some (oJK, fr2) =>
  match computeOmega frequencies (heEdge msh hki)
                     (Some crossesSheetsKI) fr2 with
  | None => None
  | Some (oKI, fr3) =>
  match fr3 crossesSheetsIJ, fr3 crossesSheetsKI with
  | Some crossesIJ, Some crossesKI =>
      let omegaIJ := cIJ * oIJ in
      let omegaJK := cJK * oJK in
      let omegaKI := cKI * oKI in
      let psiJ := if crossesIJ then conj psiJ else psiJ in
      let omegaIJ := if crossesIJ then omegaIJ * cIJ else omegaIJ in
      let omegaJK := if crossesIJ then omegaJK * (- cJK) else omegaJK in
      let psiK := if crossesKI then conj psiK else psiK in
      let omegaKI := if crossesKI then omegaKI * (- cKI) else omegaKI in
      let omegaJK := if crossesKI then omegaJK * cJK else omegaJK in
      let rij := fromAngle omegaIJ in
      let rjk := fromAngle omegaJK in
      let rki := fromAngle omegaKI in
      let alphaI := arg psiI in
      let alphaJ := alphaI + omegaIJ - arg (cdiv (cmul rij psiI) psiJ) in
      let alphaK := alphaJ + omegaJK - arg (cdiv (cmul rjk psiJ) psiK) in
      let alphaL := alphaK + omegaKI - arg (cdiv (cmul rki psiK) psiI) in
      let textureCoordinates := fst out in
      let textureCoordinates := setAt textureCoordinates (corner hij) alphaI in
      let textureCoordinates := setAt textureCoordinates (corner hjk) alphaJ in
      let textureCoordinates := setAt textureCoordinates (corner hki) alphaK in
      Some (textureCoordinates,
            setAt (snd out) f (roundToInt ((alphaL - alphaI) / twoPI)))
  | _, _ => None
  end end end end.

Fixpoint faceCoordinatesLoop (frequencies : Vertex -> D)
         (parameterization : Vertex -> Vector2 D) (fs : list Face)
         (out : (Corner -> D) * (Face -> Z))
  : option ((Corner -> D) * (Face -> Z)) :=
  match fs with
  | [] => Some out
  | f :: rest =>
      match faceCoordinates frequencies parameterization f out with
      | None => None
      | Some out' =>
          faceCoordinatesLoop frequencies parameterization rest out'
      end
  end.

Definition computeTextureCoordinates (frequencies : Vertex -> D)
           (parameterization : Vertex -> Vector2 D)
  : option ((Corner -> D) * (Face -> Z)) :=
  faceCoordinatesLoop frequencies parameterization (faces msh)
    (fun _ => fromZ 0, fun _ => 0%Z).

End Energy.

Section Pipeline.
Context {D : Type} `{Trig D}.
Local Open Scope scalar_scope.

(** Modelled from the spec: the singularity index of a direction field
    per face (section 6), and the eigensolver, both external. *)
Variable computeFaceIndex :
  Geometry D -> (Vertex -> Vector2 D) -> Z -> (Face -> Z).
Variable smallestEigenvectorPositiveDefinite :
  SparseMatrix D -> SparseMatrix D -> (Z -> D).

Definition computeStripePattern (geometry : Geometry D)
           (frequencies : Vertex -> D)
           (directionField : Vertex -> Vector2 D)
  : option ((Corner -> D) * (Face -> Z) * (Face -> Z)) :=
  let branchIndices := computeFaceIndex geometry directionField 2%Z in
  let scaled := fun v => twoPI * frequencies v in
  match computeParameterization geometry directionField branchIndices
          smallestEigenvectorPositiveDefinite scaled with
  | None => None
  | Some parameterization =>
      match computeTextureCoordinates geometry directionField
              scaled parameterization with
      | None => None
      | Some (textureCoordinates, zeroIndices) =>
          Some (textureCoordinates, zeroIndices, branchIndices)
      end
  end.

End Pipeline.

(* ================================================================== *)
(** * Principal curvature directions *)
(* ================================================================== *)

(** Modelled from the spec: the quantities the extrinsic geometry serves
    besides the intrinsic ones, and the circulation
    [v.outgoingHalfedges()] of the mesh, in its order of iteration. *)
Record ExtrinsicGeometry (D : Type) : Type := {
  intrinsic : Geometry D;
  edgeDihedralAngles : Edge -> D;
  cornerScaledAngles : Corner -> D;
  outgoingHalfedges : Vertex -> list Halfedge
}.

Section PrincipalCurvature.
Context {D : Type} `{Trig D}.
Local Open Scope scalar_scope.

(** Modelled from the spec: unary minus and [+=] of the library's
    [Vector2]. *)
Definition neg2 (v : Vector2 D) : Vector2 D :=
  {| x2 := - x2 v; y2 := - y2 v |}.
Definition add2 (u v : Vector2 D) : Vector2 D :=
  {| x2 := x2 u + x2 v; y2 := y2 u + y2 v |}.

Variable geometry : ExtrinsicGeometry D.

(** The body of the loop over the outgoing halfedges of a vertex, on the
    pair ([principalDir], [angleOfEdge]). *)
Definition curvatureStep (acc : Vector2 D * D) (he : Halfedge)
  : Vector2 D * D :=
  let principalDir := fst acc in
  let angleOfEdge := snd acc in
  let len :=
    edgeLengths (intrinsic geometry)
                (heEdge (mesh (intrinsic geometry)) he) in
  let alpha :=
    edgeDihedralAngles geometry (heEdge (mesh (intrinsic geometry)) he) in
  (add2 principalDir
        (divScalar
           (timesEq (timesEq (neg2 (fromAngle (fromZ 2 * angleOfEdge))) len)
                    alpha)
           (fromZ 2)),
   angleOfEdge + cornerScaledAngles geometry (corner he)).

(** The value stored for one vertex. *)
Definition principalDirection (v : Vertex) : Vector2 D :=
  fst (fold_left curvatureStep (outgoingHalfedges geometry v)
                 ({| x2 := fromZ 0; y2 := fromZ 0 |}, fromZ 0)).

Definition computeVertexPrincipalCurvatureDirections : Vertex -> Vector2 D :=
  fold_left (fun data v => setAt data v (principalDirection v))
            (vertices (mesh (intrinsic geometry)))
            (fun _ => {| x2 := fromZ 0; y2 := fromZ 0 |}).

End PrincipalCurvature.

(* ================================================================== *)
(** * Notions of the specification, in exact arithmetic *)
(* ================================================================== *)

Section ExactNotions.
Local Open Scope R_scope.

(** The value the source calls [isoval]: the least multiple of 2 pi not
    below [v]. *)
Definition isovalOf (v : R) : R :=
  2 * Rtrigo1.PI * IZR (Exact.ceilZ (v / (2 * Rtrigo1.PI))).

End ExactNotions.

(** The alignment that decides the sheet crossing of [computeOmega], for
    any scalar type. *)
Section Alignment.
Context {D : Type} `{Trig D}.
Local Open Scope scalar_scope.

Variable geometry : Geometry D.
Variable directionField : Vertex -> Vector2 D.
Variable e : Edge.

(** The half-angle representatives at the two endpoints. *)
Definition representativeI : Vector2 D :=
  fromAngle (arg (directionField (firstVertex (mesh geometry) e)) / fromZ 2).
Definition representativeJ : Vector2 D :=
  fromAngle (arg (directionField (secondVertex (mesh geometry) e)) / fromZ 2).

(** The dot product of the representative at I, transported along the
    edge, with the representative at J. *)
Definition alignment : D :=
  dot (cmul (transportVectorsAlongHalfedge geometry
               (edgeHalfedge (mesh geometry) e))
            representativeI)
      representativeJ.

End Alignment.

(* ================================================================== *)
(** * Concrete meshes and inputs *)
(* ================================================================== *)

(** A single triangle: halfedges 0, 1, 2 around face 0 (corners I, J, K),
    their twins 3, 4, 5 around the boundary loop. *)
Definition singleTriangle : SurfaceMesh := {|
  nVertices := 3; nFaces := 1; nEdges := 3; nHalfedges := 6;
  heNext := fun h => match h with
                     | 0 => 1 | 1 => 2 | 2 => 0 | 3 => 5 | 4 => 3 | _ => 4
                     end;
  heTwin := fun h => match h with
                     | 0 => 3 | 1 => 4 | 2 => 5 | 3 => 0 | 4 => 1 | _ => 2
                     end;
  heFace := fun h => match h with 0 | 1 | 2 => 0 | _ => 1 end;
  heVertex := fun h => match h with
                       | 0 => 0 | 1 => 1 | 2 => 2 | 3 => 1 | 4 => 2 | _ => 0
                       end;
  heEdge := fun h => match h with 0 | 3 => 0 | 1 | 4 => 1 | _ => 2 end;
  faceHalfedge := fun f => match f with 0 => 0 | _ => 3 end;
  edgeHalfedge := fun e => e
|}.

Definition noIndex : Face -> Z := fun _ => 0%Z.

(** Two triangles glued along one edge: halfedges 0, 1, 2 around face 0 and
    3, 4, 5 around face 1, with 1 and 3 twins across the shared edge; the
    halfedges 6 to 9 run around the boundary loop. *)
Definition twoTriangles : SurfaceMesh := {|
  nVertices := 4; nFaces := 2; nEdges := 5; nHalfedges := 10;
  heNext := fun h => match h with
                     | 0 => 1 | 1 => 2 | 2 => 0 | 3 => 4 | 4 => 5 | 5 => 3
                     | 6 => 7 | 7 => 9 | 9 => 8 | _ => 6
                     end;
  heTwin := fun h => match h with
                     | 0 => 6 | 6 => 0 | 1 => 3 | 3 => 1 | 2 => 7 | 7 => 2
                     | 4 => 8 | 8 => 4 | 5 => 9 | _ => 5
                     end;
  heFace := fun h => match h with
                     | 0 | 1 | 2 => 0 | 3 | 4 | 5 => 1 | _ => 2
                     end;
  heVertex := fun h => match h with
                       | 0 => 0 | 1 => 1 | 2 => 2 | 3 => 2 | 4 => 1 | 5 => 3
                       | 6 => 1 | 7 => 0 | 8 => 3 | _ => 2
                       end;
  heEdge := fun h => match h with
                     | 0 | 6 => 0 | 1 | 3 => 1 | 2 | 7 => 2 | 4 | 8 => 3
                     | _ => 4
                     end;
  faceHalfedge := fun f => match f with 0 => 0 | 1 => 3 | _ => 6 end;
  edgeHalfedge := fun e => match e with
                           | 0 => 0 | 1 => 1 | 2 => 2 | 3 => 4 | _ => 5
                           end
|}.

(** Stripe values per corner, listed in the order of the corners. *)
Definition cornerValues {D : Type} (vs : list D) (default : D) : Corner -> D :=
  fun c => nth c vs default.

Section ConcreteInputs.

(** A run of the polyline extraction on the single triangle, in binary64:
    stripe values (0.1, 6.3, 0.1), a right-angled triangle in the plane. *)
Definition trianglePositions : Vertex -> Vector3 float :=
  fun v => match v with
           | 0 => {| x3 := 0%float; y3 := 0%float; z3 := 0%float |}
           | 1 => {| x3 := 1%float; y3 := 0%float; z3 := 0%float |}
           | _ => {| x3 := 0%float; y3 := 1%float; z3 := 0%float |}
           end.

Definition triangleRun : list (Vector3 float) * list (Z * Z) :=
  Eval vm_compute in
    polylines singleTriangle trianglePositions
      [ {| barycenters := [(0, 0.0027120472290989659%float);
                           (1, 0.99728795277090099%float)];
           open := true |} ].

Local Open Scope R_scope.

(** The same triangle with real positions. *)
Definition exactPositions : Vertex -> Vector3 R :=
  fun v => match v with
           | 0%nat => {| x3 := 0; y3 := 0; z3 := 0 |}
           | 1%nat => {| x3 := 1; y3 := 0; z3 := 0 |}
           | _ => {| x3 := 0; y3 := 1; z3 := 0 |}
           end.

(** A flat triangle whose tangent bases agree along the edge 0: the
    transport is the identity and the edge points along the first axis. *)
Definition flatGeometry : Geometry R := {|
  mesh := singleTriangle;
  edgeLengths := fun _ => 1;
  vertexIndices := fun v => v;
  halfedgeVectorsInVertex := fun _ => {| x2 := 1; y2 := 0 |};
  transportVectorsAlongHalfedge := fun _ => {| x2 := 1; y2 := 0 |};
  halfedgeCotanWeights := fun _ => 1;
  vertexDualAreas := fun _ => 1
|}.

(** A line field along the first axis at vertex 0 and along the second
    axis at vertex 1, in the doubled-angle representation. *)
Definition perpendicularField : Vertex -> Vector2 R :=
  fun v => match v with
           | 1%nat => {| x2 := -1; y2 := 0 |}
           | _ => {| x2 := 1; y2 := 0 |}
           end.

(** Two flat triangles glued along one edge; the vertices 0 and 3 lie
    opposite the shared edge and no edge joins them. *)
Definition flatQuad : Geometry R := {|
  mesh := twoTriangles;
  edgeLengths := fun _ => 1;
  vertexIndices := fun v => v;
  halfedgeVectorsInVertex := fun _ => {| x2 := 1; y2 := 0 |};
  transportVectorsAlongHalfedge := fun _ => {| x2 := 1; y2 := 0 |};
  halfedgeCotanWeights := fun _ => 1;
  vertexDualAreas := fun _ => 1
|}.

(** The flat triangle as an extrinsic geometry: no edge is bent; around
    each vertex the circulation meets its outgoing halfedge of the
    triangle and the one of the boundary loop. *)
Definition flatExtrinsic : ExtrinsicGeometry R := {|
  intrinsic := flatGeometry;
  edgeDihedralAngles := fun _ => 0;
  cornerScaledAngles := fun _ => 1;
  outgoingHalfedges := fun v => match v with
                                | 0%nat => [0%nat; 5%nat]
                                | 1%nat => [1%nat; 3%nat]
                                | _ => [2%nat; 4%nat]
                                end
|}.

End ConcreteInputs.

(** A triangle across whose edges the tangent basis turns by a quarter:
    the transport vector is the unit vector (0, 1).  With a line field that
    has the same coordinates (1, 0) in the basis of every vertex, the
    representative at I, once transported, is perpendicular to the one at
    J.  All the numbers involved are 0 and 1, which binary64 holds
    exactly. *)
Definition quarterTurnGeometry {D : Type} `{Scalar D} : Geometry D := {|
  mesh := singleTriangle;
  edgeLengths := fun _ => fromZ 1;
  vertexIndices := fun v => v;
  halfedgeVectorsInVertex := fun _ => {| x2 := fromZ 1; y2 := fromZ 0 |};
  transportVectorsAlongHalfedge := fun _ => {| x2 := fromZ 0; y2 := fromZ 1 |};
  halfedgeCotanWeights := fun _ => fromZ 1;
  vertexDualAreas := fun _ => fromZ 1
|}.

Definition constantField {D : Type} `{Scalar D} : Vertex -> Vector2 D :=
  fun _ => {| x2 := fromZ 1; y2 := fromZ 0 |}.

(* ================================================================== *)
(** * Termination of a trace *)
(* ================================================================== *)

Section TraceTermination.
Context {D : Type} `{Scalar D}.
Variable mesh : SurfaceMesh.
Variable stripeValues : Corner -> D.
Variable stripesIndices fieldIndices : Face -> Z.

Local Abbreviation Trace := (Trace D).
Local Abbreviation tracing := (tracing mesh stripesIndices fieldIndices).
Local Abbreviation traceStep := (traceStep mesh stripeValues stripesIndices fieldIndices).
Local Abbreviation trace := (trace mesh stripeValues stripesIndices fieldIndices).
Local Abbreviation unvisited := (unvisited mesh).


Lemma filter_length_mono (A : Type) (p q : A -> bool) (l : list A) :
  (forall a, q a = true -> p a = true) ->
  List.length (filter q l) <= List.length (filter p l).
Proof.
  intros Hqp. induction l as [|a l IH]; simpl; [lia|].
  destruct (q a) eqn:Eq.
  - rewrite (Hqp a Eq). simpl. lia.
  - destruct (p a); simpl; lia.
Qed.

Lemma filter_length_strict (A : Type) (p q : A -> bool) (l : list A) (a : A) :
  (forall b, q b = true -> p b = true) ->
  In a l -> p a = true -> q a = false ->
  List.length (filter q l) < List.length (filter p l).
Proof.
  intros Hqp. induction l as [|b l IH]; simpl; [tauto|].
  intros [-> | Hin] Hp Hq.
  - rewrite Hp, Hq. simpl.
    pose proof (filter_length_mono p q l Hqp). lia.
  - specialize (IH Hin Hp Hq).
    destruct (q b) eqn:Eq.
    + rewrite (Hqp b Eq). simpl. lia.
    + destruct (p b); simpl; lia.
Qed.

Lemma unvisited_bound (vis : FaceFlags) : unvisited vis <= nFaces mesh.
Proof.
  unfold unvisited, faces.
  etransitivity; [apply List.filter_length_le|].
  now rewrite length_seq.
Qed.

Lemma unvisited_setFlag_le (vis : FaceFlags) (f : Face) :
  unvisited (setFlag vis f true) <= unvisited vis.
Proof.
  apply filter_length_mono. intros a. unfold setFlag.
  destruct (a =? f); [discriminate | auto].
Qed.

Lemma unvisited_setFlag_lt (vis : FaceFlags) (f : Face) :
  isBoundaryLoop mesh f = false -> vis f = false ->
  unvisited (setFlag vis f true) < unvisited vis.
Proof.
  intros Hbl Hv. apply filter_length_strict with (a := f).
  - intros a. unfold setFlag. destruct (a =? f); [discriminate | auto].
  - unfold faces. apply in_seq. unfold isBoundaryLoop in Hbl.
    apply Nat.leb_gt in Hbl. lia.
  - now rewrite Hv.
  - unfold setFlag. now rewrite Nat.eqb_refl.
Qed.

Lemma traceStep_visited (f : Face) (t : Trace) :
  visited (traceStep f t) = setFlag (visited t) (curFace t) true.
Proof.
  unfold traceStep.
  destruct (firstCrossing _ _ _ _) as [[he bary]|]; [|reflexivity].
  now destruct (negb _ && _).
Qed.

(** A trace that goes on has just moved into a face not yet marked. *)
Lemma traceStep_fresh (f : Face) (t : Trace) :
  tracing (traceStep f t) = true ->
  visited (traceStep f t) (curFace (traceStep f t)) = false.
Proof.
  unfold traceStep, tracing.
  destruct (firstCrossing _ _ _ _) as [[he bary]|]; simpl.
  - destruct (negb (isBoundaryLoop mesh (heFace mesh (heTwin mesh he))))
      eqn:Ebl; simpl.
    + destruct (setFlag (visited t) (curFace t) true
                  (heFace mesh (heTwin mesh he))) eqn:Ev; simpl.
      * rewrite andb_false_r. discriminate.
      * intros _. exact Ev.
    + rewrite Ebl. discriminate.
  - rewrite andb_false_r. discriminate.
Qed.

Lemma trace_terminates_fresh (fuel : nat) (f : Face) (t : Trace) :
  (tracing t = true -> visited t (curFace t) = false) ->
  unvisited (visited t) < S fuel ->
  exists t', trace fuel f t = Some t'.
Proof.
  revert t. induction fuel as [|fuel IH]; intros t Hfresh Hlt; simpl.
  - destruct (tracing t) eqn:Et; [|eauto].
    exfalso. specialize (Hfresh eq_refl).
    assert (Hbl : isBoundaryLoop mesh (curFace t) = false).
    { unfold tracing in Et. destruct (isBoundaryLoop mesh (curFace t));
        [discriminate | reflexivity]. }
    pose proof (unvisited_setFlag_lt (visited t) (curFace t) Hbl Hfresh).
    lia.
  - destruct (tracing t) eqn:Et; [|eauto].
    apply IH.
    + apply traceStep_fresh.
    + rewrite traceStep_visited.
      assert (Hbl : isBoundaryLoop mesh (curFace t) = false).
      { unfold tracing in Et. destruct (isBoundaryLoop mesh (curFace t));
          [discriminate | reflexivity]. }
      pose proof (unvisited_setFlag_lt (visited t) (curFace t) Hbl
                    (Hfresh eq_refl)).
      lia.
Qed.

Lemma trace_unfold (fuel : nat) (f : Face) (t : Trace) :
  trace (S fuel) f t =
  if tracing t then trace fuel f (traceStep f t) else Some t.
Proof. reflexivity. Qed.

(** The iteration bound is never reached. *)
Lemma trace_terminates (f : Face) (t : Trace) :
  exists t', trace (traceFuel mesh) f t = Some t'.
Proof.
  unfold traceFuel. rewrite trace_unfold.
  destruct (tracing t) eqn:Et; [|eauto].
  apply trace_terminates_fresh.
  - apply traceStep_fresh.
  - rewrite traceStep_visited.
    pose proof (unvisited_setFlag_le (visited t) (curFace t)).
    pose proof (unvisited_bound (visited t)). lia.
Qed.

Lemma seedStep_returns (f : Face) (s : Seed D) (h : Halfedge) :
  exists s', seedStep mesh stripeValues stripesIndices fieldIndices f s h
             = Some s'.
Proof.
  unfold seedStep.
  destruct (crossesModulo2Pi _ _) as [bary|]; [|eauto].
  destruct (trace_terminates f
              {| isoPts := [(h, bary)]; prevFace := f;
                 curFace := heFace mesh (heTwin mesh h); done := false;
                 visited := seedVisited s; isoOpen := open (iso s) |})
    as [t ->].
  eauto.
Qed.

Lemma seedLoop_returns (f : Face) (hes : list Halfedge) (s : Seed D) :
  exists s', seedLoop mesh stripeValues stripesIndices fieldIndices f s hes
             = Some s'.
Proof.
  revert s. induction hes as [|h hes IH]; intros s; simpl; [eauto|].
  destruct (seedStep_returns f s h) as [s' ->]. apply IH.
Qed.

Lemma traceFace_returns (f : Face) (vis : FaceFlags) :
  exists s, traceFace mesh stripeValues stripesIndices fieldIndices f vis
            = Some s.
Proof. apply seedLoop_returns. Qed.

End TraceTermination.

(* ================================================================== *)
(** * The outcomes of the loop over the faces *)
(* ================================================================== *)

Section Branching.
Context {D : Type} `{Scalar D}.
Variable mesh : SurfaceMesh.
Variable stripeValues : Corner -> D.
Variable stripesIndices fieldIndices : Face -> Z.

Lemma faceLoop_outcome (fs : list Face) (vis : FaceFlags)
      (isolines : list (Isoline D)) :
  (Exists (fun p => (2 < snd p)%Z)
          (seedExits mesh stripeValues stripesIndices fieldIndices fs vis)
   /\ faceLoop mesh stripeValues stripesIndices fieldIndices fs vis isolines
      = Thrown branchingError)
  \/ (Forall (fun p => (snd p <= 2)%Z)
             (seedExits mesh stripeValues stripesIndices fieldIndices fs vis)
      /\ exists isolines',
          faceLoop mesh stripeValues stripesIndices fieldIndices fs vis
                   isolines
          = Returned isolines').
Proof.
  revert vis isolines.
  induction fs as [|f fs IH]; intros vis isolines; simpl.
  - right. split; [constructor | eauto].
  - destruct (vis f || negb (stripesIndices f =? 0)%Z
              || negb (fieldIndices f =? 0)%Z); [apply IH|].
    destruct (traceFace_returns mesh stripeValues stripesIndices
                fieldIndices f vis) as [s ->].
    destruct (2 <? nbOfPieces s)%Z eqn:E.
    + left. apply Z.ltb_lt in E. split; [|reflexivity].
      constructor. exact E.
    + apply Z.ltb_ge in E.
      destruct (IH (seedVisited s)
                   (if (0 <? nbOfPieces s)%Z then isolines ++ [iso s]
                    else isolines)) as [[Hex Hth] | [Hall Hret]].
      * left. split; [|exact Hth]. now apply Exists_cons_tl.
      * right. split; [|exact Hret]. constructor; [exact E | exact Hall].
Qed.

End Branching.

(* ================================================================== *)
(** * Where a trace stops *)
(* ================================================================== *)

Section TraceEnd.
Context {D : Type} `{Scalar D}.
Variable mesh : SurfaceMesh.
Variable stripeValues : Corner -> D.
Variable stripesIndices fieldIndices : Face -> Z.
Variable f : Face.
Variable op : bool.

Local Abbreviation tracing := (tracing mesh stripesIndices fieldIndices).
Local Abbreviation traceStep :=
  (traceStep mesh stripeValues stripesIndices fieldIndices f).
Local Abbreviation stoppedAt :=
  (stoppedAt mesh stripeValues stripesIndices fieldIndices f op).
Local Abbreviation beyondLast := (beyondLast mesh).
Local Abbreviation traceInv :=
  (traceInv mesh stripeValues stripesIndices fieldIndices f op).


Lemma tracing_true (t : Trace D) :
  tracing t = true ->
  isBoundaryLoop mesh (curFace t) = false
  /\ done t = false
  /\ stripesIndices (curFace t) = 0%Z /\ fieldIndices (curFace t) = 0%Z.
Proof.
  unfold tracing. intros E.
  apply andb_prop in E as [E E4]. apply andb_prop in E as [E E3].
  apply andb_prop in E as [E1 E2].
  apply negb_true_iff in E1, E2. apply Z.eqb_eq in E3, E4. tauto.
Qed.

(** The inner loop finds nothing only when the crossing test fails on
    every halfedge that does not lead back to [prev]. *)
Lemma firstCrossing_none (prev : Face) (hes : list Halfedge) :
  firstCrossing mesh stripeValues prev hes = None ->
  forall he, In he hes ->
    heFace mesh (heTwin mesh he) <> prev ->
    crossesModulo2Pi (stripeValues (corner he))
                     (stripeValues (corner (heNext mesh he))) = None.
Proof.
  induction hes as [|h hes IH]; simpl; [tauto|].
  destruct (Nat.eqb_spec (heFace mesh (heTwin mesh h)) prev) as [Eopp|Eopp].
  - intros Hnone he [<- | Hin] Hne; [contradiction | now apply IH].
  - destruct (crossesModulo2Pi (stripeValues (corner h))
                (stripeValues (corner (heNext mesh h)))) as [b|] eqn:E;
      [discriminate|].
    intros Hnone he [<- | Hin] Hne; [exact E | now apply IH].
Qed.

(** What the inner loop finds is the first halfedge that does not lead
    back to [prev] and passes the crossing test. *)
Lemma firstCrossing_first (prev : Face) (hes : list Halfedge)
      (he : Halfedge) (bary : D) :
  firstCrossing mesh stripeValues prev hes = Some (he, bary) ->
  exists before after,
    hes = before ++ he :: after
    /\ (forall h', In h' before ->
                   heFace mesh (heTwin mesh h') = prev
                   \/ crossesModulo2Pi (stripeValues (corner h'))
                        (stripeValues (corner (heNext mesh h'))) = None)
    /\ heFace mesh (heTwin mesh he) <> prev
    /\ crossesModulo2Pi (stripeValues (corner he))
                        (stripeValues (corner (heNext mesh he))) = Some bary.
Proof.
  induction hes as [|h hes IH]; simpl; [discriminate|].
  destruct (Nat.eqb_spec (heFace mesh (heTwin mesh h)) prev) as [Eopp|Eopp].
  - intros Hf. destruct (IH Hf) as (before & after & -> & Hbefore & Hrest).
    exists (h :: before), after. split; [reflexivity|]. split; [|exact Hrest].
    intros h' [<- | Hin]; [now left | now apply Hbefore].
  - destruct (crossesModulo2Pi (stripeValues (corner h))
                (stripeValues (corner (heNext mesh h)))) as [b|] eqn:E.
    + intros Heq. inversion Heq; subst.
      exists [], hes. split; [reflexivity|]. split; [intros h' []|].
      split; [exact Eopp | exact E].
    + intros Hf. destruct (IH Hf) as (before & after & -> & Hbefore & Hrest).
      exists (h :: before), after. split; [reflexivity|].
      split; [|exact Hrest].
      intros h' [<- | Hin]; [now right | now apply Hbefore].
Qed.

Lemma traceStep_inv (t : Trace D) :
  tracing t = true -> traceInv t -> traceInv (traceStep t).
Proof.
  intros Et (Hlast & Hop & _). specialize (Hop Et).
  destruct (tracing_true t Et) as (Hbl & Hdone & Hsi & Hfi).
  unfold traceStep.
  destruct (firstCrossing mesh stripeValues (prevFace t)
              (adjacentHalfedges mesh (curFace t)))
    as [[he bary]|] eqn:Ecross.
  - destruct (negb (isBoundaryLoop mesh (heFace mesh (heTwin mesh he)))
              && setFlag (visited t) (curFace t) true
                   (heFace mesh (heTwin mesh he))) eqn:Evis.
    + (* the next crossing leads into a visited face *)
      apply andb_prop in Evis as [Eb Ev]. apply negb_true_iff in Eb.
      split; [exact Hlast|]. split.
      * unfold tracing. simpl. rewrite andb_false_r. discriminate.
      * intros _. right. right. right. simpl.
        repeat (split; [assumption|]).
        destruct (firstCrossing_first _ _ Ecross)
          as (before & after & Hadj & Hbefore & Hne & Hc).
        exists before, he, after, bary. rewrite Hop. auto 10.
    + (* the trace moves on *)
      split; [|split].
      * destruct Hlast as (pts & he0 & b0 & Hpts & _).
        exists (isoPts t), he, bary. simpl. auto.
      * intros _. exact Hop.
      * unfold tracing, stoppedAt. simpl.
        destruct (isBoundaryLoop mesh (heFace mesh (heTwin mesh he)));
          simpl; [auto|].
        destruct (Z.eqb_spec (stripesIndices (heFace mesh (heTwin mesh he)))
                             0);
          simpl; [|intros _; right; left; auto].
        destruct (Z.eqb_spec (fieldIndices (heFace mesh (heTwin mesh he)))
                             0);
          simpl; [discriminate | intros _; right; left; auto].
  - (* no crossing on the other edges *)
    split; [exact Hlast|]. split.
    + unfold tracing. simpl. rewrite andb_false_r. discriminate.
    + intros _. right. right. left. simpl.
      repeat (split; [assumption|]).
      split; [|exact Hop].
      intros he Hin Hne. eapply firstCrossing_none; eassumption.
Qed.

Lemma trace_inv (fuel : nat) (t t' : Trace D) :
  trace mesh stripeValues stripesIndices fieldIndices fuel f t = Some t' ->
  traceInv t -> traceInv t' /\ tracing t' = false.
Proof.
  revert t. induction fuel as [|fuel IH]; intros t; simpl.
  - destruct (tracing t) eqn:Et; [discriminate|].
    intros [= <-]. auto.
  - destruct (tracing t) eqn:Et.
    + intros Htr Hinv. apply (IH _ Htr). now apply traceStep_inv.
    + intros [= <-]. auto.
Qed.

End TraceEnd.



(* ================================================================== *)
(** * Crossings in exact arithmetic *)
(* ================================================================== *)

Section ExactCrossing.
Local Open Scope R_scope.

Lemma ceilZ_spec (x : R) :
  IZR (Exact.ceilZ x) - 1 < x <= IZR (Exact.ceilZ x).
Proof.
  unfold Exact.ceilZ. rewrite minus_IZR.
  destruct (archimed (- x)) as [Hgt Hle]. lra.
Qed.

Lemma ceilZ_least (x : R) (k : Z) : x <= IZR k -> (Exact.ceilZ x <= k)%Z.
Proof.
  intros Hk. destruct (ceilZ_spec x) as [Hlo _].
  apply Z.lt_succ_r. apply lt_IZR. rewrite succ_IZR. lra.
Qed.

Lemma twoPI_exact : twoPI = 2 * Rtrigo1.PI.
Proof. reflexivity. Qed.

Lemma twoPI_pos : 0 < 2 * Rtrigo1.PI.
Proof. pose proof PI_RGT_0. lra. Qed.


Lemma isovalOf_spec (v : R) :
  v <= isovalOf v < v + 2 * Rtrigo1.PI.
Proof.
  unfold isovalOf. pose proof twoPI_pos as Hpos.
  destruct (ceilZ_spec (v / (2 * Rtrigo1.PI))) as [Hlo Hhi].
  assert (Hv : v = 2 * Rtrigo1.PI * (v / (2 * Rtrigo1.PI))) by (field; lra).
  split.
  - rewrite Hv at 1. apply Rmult_le_compat_l; lra.
  - rewrite Hv at 2.
    replace (2 * Rtrigo1.PI * (v / (2 * Rtrigo1.PI)) + 2 * Rtrigo1.PI)
      with (2 * Rtrigo1.PI * (v / (2 * Rtrigo1.PI) + 1)) by ring.
    apply Rmult_lt_compat_l; lra.
Qed.

(** The source function, on real numbers. *)
Lemma crossesModulo2Pi_exact (val1 val2 : R) :
  crossesModulo2Pi val1 val2 =
  if Req_dec_T val1 val2 then None
  else if Rlt_dec val1 val2 then
    if Rlt_dec (isovalOf val1) val2
    then Some ((isovalOf val1 - val2) / (val1 - val2)) else None
  else
    if Rlt_dec (isovalOf val2) val1
    then Some ((isovalOf val2 - val2) / (val1 - val2)) else None.
Proof.
  unfold crossesModulo2Pi, isovalOf, twoPI. cbn.
  unfold Exact.eqb, Exact.ltb, Exact.ceil.
  destruct (Req_dec_T val1 val2); [reflexivity|].
  destruct (Rlt_dec val1 val2).
  - now destruct (Rlt_dec _ val2).
  - now destruct (Rlt_dec _ val1).
Qed.

(** In exact arithmetic a reported parameter lies in [0, 1] and is the
    interpolation weight of [val1] at the multiple of 2 pi found. *)
Lemma crossing_bary_exact (val1 val2 bary : R) :
  crossesModulo2Pi val1 val2 = Some bary ->
  0 <= bary <= 1
  /\ exists k : Z,
       bary * val1 + (1 - bary) * val2 = 2 * Rtrigo1.PI * IZR k
       /\ Rmin val1 val2 <= 2 * Rtrigo1.PI * IZR k < Rmax val1 val2.
Proof.
  rewrite crossesModulo2Pi_exact.
  destruct (Req_dec_T val1 val2) as [|Hne]; [discriminate|].
  destruct (Rlt_dec val1 val2) as [Hlt|Hge].
  - destruct (Rlt_dec (isovalOf val1) val2) as [Hiso|]; [|discriminate].
    intros [= <-]. destruct (isovalOf_spec val1) as [Hlo _].
    assert (Hd : val1 - val2 < 0) by lra.
    split.
    + split.
      * apply Rmult_le_reg_r with (r := - (val1 - val2)); [lra|].
        replace ((isovalOf val1 - val2) / (val1 - val2) * - (val1 - val2))
          with (- (isovalOf val1 - val2)) by (field; lra).
        lra.
      * apply Rmult_le_reg_r with (r := - (val1 - val2)); [lra|].
        replace ((isovalOf val1 - val2) / (val1 - val2) * - (val1 - val2))
          with (- (isovalOf val1 - val2)) by (field; lra).
        lra.
    + exists (Exact.ceilZ (val1 / (2 * Rtrigo1.PI))).
      fold (isovalOf val1). split; [field; lra|].
      rewrite Rmin_left, Rmax_right by lra. lra.
  - destruct (Rlt_dec (isovalOf val2) val1) as [Hiso|]; [|discriminate].
    intros [= <-]. destruct (isovalOf_spec val2) as [Hlo _].
    assert (Hd : 0 < val1 - val2) by lra.
    split.
    + split.
      * apply Rmult_le_reg_r with (r := val1 - val2); [lra|].
        replace ((isovalOf val2 - val2) / (val1 - val2) * (val1 - val2))
          with (isovalOf val2 - val2) by (field; lra).
        lra.
      * apply Rmult_le_reg_r with (r := val1 - val2); [lra|].
        replace ((isovalOf val2 - val2) / (val1 - val2) * (val1 - val2))
          with (isovalOf val2 - val2) by (field; lra).
        lra.
    + exists (Exact.ceilZ (val2 / (2 * Rtrigo1.PI))).
      fold (isovalOf val2). split; [field; lra|].
      rewrite Rmin_right, Rmax_left by lra. lra.
Qed.

Lemma isovalOf_0 : isovalOf 0 = 0.
Proof.
  unfold isovalOf.
  replace (Exact.ceilZ (0 / (2 * Rtrigo1.PI))) with 0%Z; [ring|].
  unfold Exact.ceilZ.
  replace (- (0 / (2 * Rtrigo1.PI))) with 0
    by (pose proof twoPI_pos; field; lra).
  rewrite <- (tech_up 0 1); [reflexivity | lra | lra].
Qed.

Lemma crossing_0_1_exact : crossesModulo2Pi 0 1 = Some 1.
Proof.
  rewrite crossesModulo2Pi_exact.
  destruct (Req_dec_T 0 1) as [|_]; [lra|].
  destruct (Rlt_dec 0 1) as [_|]; [|lra].
  rewrite isovalOf_0.
  destruct (Rlt_dec 0 1) as [_|]; [|lra].
  f_equal. field.
Qed.

Lemma crossing_1_0_exact : crossesModulo2Pi 1 0 = Some 0.
Proof.
  rewrite crossesModulo2Pi_exact.
  destruct (Req_dec_T 1 0) as [|_]; [lra|].
  destruct (Rlt_dec 1 0) as [|_]; [lra|].
  rewrite isovalOf_0.
  destruct (Rlt_dec 0 1) as [_|]; [|lra].
  f_equal. field.
Qed.

Lemma crossing_same_exact (v : R) : crossesModulo2Pi v v = None.
Proof.
  rewrite crossesModulo2Pi_exact.
  destruct (Req_dec_T v v) as [_|]; [reflexivity | lra].
Qed.

Lemma no_multiple_between_0_and_1 (k : Z) :
  ~ (0 < 2 * Rtrigo1.PI * IZR k < 1).
Proof.
  intros [Hlo Hhi]. pose proof PI2_3_2 as Hpi.
  assert (Hk : (0 < k)%Z).
  { apply lt_IZR. apply Rmult_lt_reg_l with (r := 2 * Rtrigo1.PI); lra. }
  assert (1 <= IZR k) by (apply IZR_le; lia).
  nra.
Qed.

End ExactCrossing.

(* ================================================================== *)
(** * Rounding in exact arithmetic *)
(* ================================================================== *)

Section Rounding.
Local Open Scope R_scope.

(** [Exact.roundToInt] returns an integer nearest to its argument. *)
Lemma roundToInt_nearest (x : R) :
  Rabs (IZR (Exact.roundToInt x) - x) <= / 2.
Proof.
  unfold Exact.roundToInt.
  destruct (Rle_dec 0 x) as [Hpos|Hneg].
  - destruct (archimed (x + / 2)) as [Hup Hlow].
    rewrite minus_IZR. apply Rabs_le. lra.
  - destruct (archimed (- x + / 2)) as [Hup Hlow].
    rewrite opp_IZR, minus_IZR. apply Rabs_le. lra.
Qed.

(** An integer is left as it is. *)
Lemma roundToInt_integer (k : Z) : Exact.roundToInt (IZR k) = k.
Proof.
  unfold Exact.roundToInt.
  destruct (Rle_dec 0 (IZR k)) as [Hpos|Hneg].
  - assert (Hup : (k + 1)%Z = up (IZR k + / 2))
      by (apply up_tech; [|rewrite plus_IZR]; lra).
    lia.
  - assert (Hup : (- k + 1)%Z = up (- IZR k + / 2))
      by (apply up_tech; [|rewrite plus_IZR]; rewrite opp_IZR; lra).
    lia.
Qed.

(** A halfway case goes away from zero. *)
Lemma roundToInt_halfway (k : Z) :
  (0 <= k)%Z ->
  Exact.roundToInt (IZR k + / 2) = (k + 1)%Z
  /\ Exact.roundToInt (- (IZR k + / 2)) = (- (k + 1))%Z.
Proof.
  intros Hk. apply IZR_le in Hk. unfold Exact.roundToInt. split.
  - destruct (Rle_dec 0 (IZR k + / 2)) as [_|Habs]; [|lra].
    assert (Hup : (k + 1 + 1)%Z = up (IZR k + / 2 + / 2))
      by (apply up_tech; rewrite !plus_IZR; lra).
    lia.
  - destruct (Rle_dec 0 (- (IZR k + / 2))) as [Habs|_]; [lra|].
    assert (Hup : (k + 1 + 1)%Z = up (- - (IZR k + / 2) + / 2))
      by (apply up_tech; rewrite !plus_IZR; lra).
    lia.
Qed.

End Rounding.

(* ================================================================== *)
(** * What every returned isoline is made of *)
(* ================================================================== *)

Section IsolineInvariant.
Context {D : Type} `{Scalar D}.
Variable mesh : SurfaceMesh.
Variable stripeValues : Corner -> D.
Variable stripesIndices fieldIndices : Face -> Z.

Local Abbreviation crossingPoint := (crossingPoint mesh stripeValues).
Local Abbreviation wellFormedIsoline := (wellFormedIsoline mesh stripeValues).
Local Abbreviation seedInv := (seedInv mesh stripeValues).


Lemma firstCrossing_crossingPoint (prev : Face) (hes : list Halfedge)
      (he : Halfedge) (bary : D) :
  firstCrossing mesh stripeValues prev hes = Some (he, bary) ->
  crossingPoint (he, bary).
Proof.
  induction hes as [|h hes IH]; simpl; [discriminate|].
  destruct (heFace mesh (heTwin mesh h) =? prev); [exact IH|].
  destruct (crossesModulo2Pi _ _) as [b|] eqn:E; [|exact IH].
  intros [= <- <-]. exact E.
Qed.

Lemma traceStep_points (f : Face) (t : Trace D) :
  isoPts t <> [] /\ Forall crossingPoint (isoPts t) ->
  isoPts (traceStep mesh stripeValues stripesIndices fieldIndices f t) <> []
  /\ Forall crossingPoint
            (isoPts (traceStep mesh stripeValues stripesIndices
                               fieldIndices f t)).
Proof.
  intros [Hne Hall]. unfold traceStep.
  destruct (firstCrossing _ _ _ _) as [[he bary]|] eqn:E; [|auto].
  destruct (negb _ && _); [auto|]. simpl. split.
  - intros Happ. apply app_eq_nil in Happ as [_ Habs]. discriminate.
  - apply Forall_app. split; [exact Hall|].
    constructor; [|constructor].
    exact (firstCrossing_crossingPoint _ _ E).
Qed.

Lemma trace_points (fuel : nat) (f : Face) (t t' : Trace D) :
  trace mesh stripeValues stripesIndices fieldIndices fuel f t = Some t' ->
  isoPts t <> [] /\ Forall crossingPoint (isoPts t) ->
  isoPts t' <> [] /\ Forall crossingPoint (isoPts t').
Proof.
  revert t. induction fuel as [|fuel IH]; intros t; simpl.
  - destruct (tracing _ _ _ t); [discriminate|]. now intros [= <-].
  - destruct (tracing _ _ _ t).
    + intros Htr Hinv. apply (IH _ Htr). now apply traceStep_points.
    + now intros [= <-].
Qed.


Lemma seedStep_inv (f : Face) (s s' : Seed D) (h : Halfedge) :
  seedStep mesh stripeValues stripesIndices fieldIndices f s h = Some s' ->
  seedInv s -> seedInv s'.
Proof.
  unfold seedStep. intros Hstep (Hnb & Hne & Hall).
  destruct (crossesModulo2Pi _ _) as [bary|] eqn:Ecross.
  - destruct (trace _ _ _ _ _ _ _) as [t|] eqn:Etrace; [|discriminate].
    injection Hstep as <-.
    destruct (trace_points _ _ _ Etrace) as [Hpts Hcross].
    { split; [discriminate|]. constructor; [exact Ecross | constructor]. }
    unfold seedInv. simpl. split; [lia|]. split.
    + intros _.
      destruct (List.length (barycenters (iso s)) =? 0);
        intros Happ; apply app_eq_nil in Happ as [_ Habs].
      * apply (f_equal (@rev _)) in Habs. rewrite rev_involutive in Habs.
        now apply Hpts.
      * now apply Hpts.
    + destruct (List.length (barycenters (iso s)) =? 0);
        apply Forall_app; split; auto.
      apply Forall_rev. exact Hcross.
  - now injection Hstep as <-.
Qed.

Lemma seedLoop_inv (f : Face) (hes : list Halfedge) (s s' : Seed D) :
  seedLoop mesh stripeValues stripesIndices fieldIndices f s hes = Some s' ->
  seedInv s -> seedInv s'.
Proof.
  revert s. induction hes as [|h hes IH]; intros s; simpl.
  - now intros [= <-].
  - destruct (seedStep _ _ _ _ _ _ _) as [s1|] eqn:E; [|discriminate].
    intros Hloop Hinv. apply (IH _ Hloop).
    eapply seedStep_inv; eassumption.
Qed.

Lemma faceLoop_wellFormed (fs : list Face) (vis : FaceFlags)
      (isolines result : list (Isoline D)) :
  faceLoop mesh stripeValues stripesIndices fieldIndices fs vis isolines
  = Returned result ->
  Forall wellFormedIsoline isolines -> Forall wellFormedIsoline result.
Proof.
  revert vis isolines.
  induction fs as [|f fs IH]; intros vis isolines; simpl.
  - now intros [= <-].
  - destruct (vis f || _ || _); [apply IH|].
    destruct (traceFace _ _ _ _ _ _) as [s|] eqn:Eseed; [|discriminate].
    destruct (2 <? nbOfPieces s)%Z; [discriminate|].
    intros Hloop Hall. apply (IH _ _ Hloop).
    assert (Hinv : seedInv s).
    { eapply seedLoop_inv; [exact Eseed|].
      split; [simpl; lia|]. split; [simpl; lia | constructor]. }
    destruct Hinv as (_ & Hne & Hcross).
    destruct (0 <? nbOfPieces s)%Z eqn:Epos; [|exact Hall].
    apply Forall_app. split; [exact Hall|].
    constructor; [|constructor].
    apply Z.ltb_lt in Epos. split; auto.
Qed.

(** Every isoline returned has at least one point, and each of its points
    was reported by a crossing test on the edge of its halfedge. *)
Lemma extracted_isolines_wellFormed (isolines : list (Isoline D)) :
  extractIsolinesFromStripePattern mesh stripeValues stripesIndices
                                   fieldIndices
  = Returned isolines ->
  Forall wellFormedIsoline isolines.
Proof.
  intros Hret. eapply faceLoop_wellFormed; [exact Hret | constructor].
Qed.

End IsolineInvariant.

(* ================================================================== *)
(** * Polylines: points and edges *)
(* ================================================================== *)

Section PolylineCounts.
Context {D : Type} `{Scalar D}.
Variable mesh : SurfaceMesh.
Variable vertexPositions : Vertex -> Vector3 D.

Local Abbreviation pointStep := (pointStep mesh vertexPositions).
Local Abbreviation isolineStep := (isolineStep mesh vertexPositions).
Local Abbreviation isoPoint := (isoPoint mesh vertexPositions).


Lemma pointLoop_spec (start : Z) (n : nat) (pts : list (Halfedge * D))
      (s : Soup D) :
  let s' := fold_left (pointStep start n) pts s in
  points s' = points s ++ map isoPoint pts
  /\ index s' = (index s + Z.of_nat (List.length pts))%Z
  /\ Z.of_nat (List.length (polyEdges s'))
     = (Z.of_nat (List.length (polyEdges s))
        + Z.max 0 (Z.min (Z.of_nat (List.length pts))
                         (start + Z.of_nat n - 1 - index s)))%Z
  /\ incl (polyEdges s) (polyEdges s').
Proof.
  revert s. induction pts as [|p pts IH]; intros s; simpl.
  - rewrite app_nil_r. repeat split; try lia; try apply incl_refl; auto.
  - destruct (IH (pointStep start n s p))
      as (Hp & Hi & He & Hincl).
    rewrite Hp, Hi, He. unfold pointStep at 1 2 3 4. simpl.
    split; [now rewrite <- app_assoc|]. split; [lia|]. split.
    + destruct (index s <? start + Z.of_nat n - 1)%Z eqn:E.
      * apply Z.ltb_lt in E. rewrite length_app. simpl. lia.
      * apply Z.ltb_ge in E. lia.
    + intros e He'. apply Hincl. unfold pointStep. simpl.
      destruct (index s <? start + Z.of_nat n - 1)%Z; [|exact He'].
      apply in_or_app. now left.
Qed.

Lemma isolineStep_spec (s : Soup D) (i : Isoline D) :
  barycenters i <> [] ->
  let s' := isolineStep s i in
  points s' = points s ++ map isoPoint (barycenters i)
  /\ index s' = (index s + size i)%Z
  /\ Z.of_nat (List.length (polyEdges s'))
     = (Z.of_nat (List.length (polyEdges s))
        + (if open i then size i - 1 else size i))%Z
  /\ incl (polyEdges s) (polyEdges s')
  /\ (open i = false ->
      In ((index s + size i - 1)%Z, index s) (polyEdges s')).
Proof.
  intros Hne. unfold isolineStep, size.
  destruct (pointLoop_spec (index s) (List.length (barycenters i))
              (barycenters i) s) as (Hp & Hi & He & Hincl).
  assert (Hlen : (1 <= Z.of_nat (List.length (barycenters i)))%Z).
  { destruct (barycenters i); [contradiction | simpl; lia]. }
  destruct (open i); simpl.
  - repeat split; auto; try lia; discriminate.
  - rewrite length_app, Hi. simpl. repeat split; auto; try lia.
    + intros e He'. apply in_or_app. left. now apply Hincl.
    + intros _. apply in_or_app. right. now left.
Qed.

Lemma isolineLoop_spec (isolines : list (Isoline D)) (s : Soup D) :
  Forall (fun i => barycenters i <> []) isolines ->
  let s' := fold_left isolineStep isolines s in
  Z.of_nat (List.length (points s'))
  = (Z.of_nat (List.length (points s)) + totalBarycenters isolines)%Z
  /\ index s' = (index s + totalBarycenters isolines)%Z
  /\ Z.of_nat (List.length (polyEdges s'))
     = (Z.of_nat (List.length (polyEdges s)) + expectedEdges isolines)%Z
  /\ incl (polyEdges s) (polyEdges s')
  /\ forall before i after,
       isolines = before ++ i :: after -> open i = false ->
       In ((index s + totalBarycenters before + size i - 1)%Z,
           (index s + totalBarycenters before)%Z)
          (polyEdges s').
Proof.
  revert s. induction isolines as [|i isolines IH]; intros s Hall; simpl.
  - repeat split; try lia; [apply incl_refl|].
    intros [|? ?] ? ? Habs; discriminate.
  - inversion Hall as [|? ? Hne Hrest]; subst.
    destruct (isolineStep_spec s i Hne) as (Hp & Hi & He & Hincl & Hclose).
    destruct (IH (isolineStep s i) Hrest)
      as (Hp' & Hi' & He' & Hincl' & Hclose').
    rewrite Hp', Hi', He', Hp, Hi, He.
    rewrite length_app, length_map. fold (size i).
    split; [unfold size; lia|]. split; [lia|]. split; [lia|]. split.
    + intros e Hin. apply Hincl'. now apply Hincl.
    + intros before j after Heq Hopen.
      destruct before as [|b before]; simpl in Heq; injection Heq as <- ->.
      * simpl. apply Hincl'.
        replace (index s + 0 + size i - 1)%Z with (index s + size i - 1)%Z
          by lia.
        replace (index s + 0)%Z with (index s) by lia.
        now apply Hclose.
      * specialize (Hclose' before j after eq_refl Hopen).
        rewrite Hi in Hclose'. simpl.
        replace (index s + (size i + totalBarycenters before) + size j - 1)%Z
          with (index s + size i + totalBarycenters before + size j - 1)%Z
          by lia.
        replace (index s + (size i + totalBarycenters before))%Z
          with (index s + size i + totalBarycenters before)%Z by lia.
        exact Hclose'.
Qed.

Lemma polylines_points (isolines : list (Isoline D)) :
  fst (polylines mesh vertexPositions isolines)
  = map isoPoint (flat_map (@barycenters D) isolines).
Proof.
  unfold polylines. simpl.
  change (map isoPoint (flat_map (@barycenters D) isolines))
    with (points {| points := []; polyEdges := []; index := 0 |}
          ++ map isoPoint (flat_map (@barycenters D) isolines)).
  generalize {| points := @nil (Vector3 D); polyEdges := []; index := 0 |}.
  induction isolines as [|i isolines IH]; intros s; simpl.
  - now rewrite app_nil_r.
  - rewrite IH. rewrite map_app, app_assoc. f_equal.
    unfold isolineStep.
    destruct (pointLoop_spec (index s) (List.length (barycenters i))
                (barycenters i) s) as (Hp & _).
    now destruct (open i).
Qed.

End PolylineCounts.

(** C6: when the extraction returns isolines, the polylines built from them
    have as many points as there are barycenters in all isolines, and as
    many edges as barycenters - 1 summed over the open isolines plus
    barycenters summed over the closed ones; each closed isoline has the
    edge from its last point back to its first. *)
Theorem polyline_counts
        (D : Type) (S : Scalar D) (mesh : SurfaceMesh)
        (vertexPositions : Vertex -> Vector3 D)
        (values : Corner -> D) (stripesIndices fieldIndices : Face -> Z)
        (pts : list (Vector3 D)) (es : list (Z * Z)) :
  extractPolylinesFromStripePattern mesh vertexPositions values
                                    stripesIndices fieldIndices
  = Returned (pts, es) ->
  exists isolines,
    extractIsolinesFromStripePattern mesh values stripesIndices fieldIndices
    = Returned isolines
    /\ Z.of_nat (List.length pts) = totalBarycenters isolines
    /\ Z.of_nat (List.length es) = expectedEdges isolines
    /\ forall before i after,
         isolines = before ++ i :: after -> open i = false ->
         In ((totalBarycenters before + size i - 1)%Z,
             totalBarycenters before) es.
Proof.
  unfold extractPolylinesFromStripePattern.
  destruct (extractIsolinesFromStripePattern mesh values stripesIndices
              fieldIndices) as [isolines| |] eqn:Eiso; try discriminate.
  intros [= <- <-]. exists isolines. split; [reflexivity|].
  assert (Hne : Forall (fun i => barycenters i <> []) isolines).
  { eapply Forall_impl; [|exact (extracted_isolines_wellFormed _ _ _ _ Eiso)].
    now intros i [Hne _]. }
  destruct (@isolineLoop_spec D S mesh vertexPositions isolines
              {| points := []; polyEdges := []; index := 0 |} Hne)
    as (Hp & _ & He & _ & Hclose).
  simpl in Hp, He, Hclose. repeat split; auto.
Qed.


Lemma polyline_counts_witness :
  extractPolylinesFromStripePattern singleTriangle trianglePositions
    (cornerValues [0.1; 6.3; 0.1]%float 0%float) noIndex noIndex
  = Returned triangleRun
  /\ exists isolines,
       extractIsolinesFromStripePattern singleTriangle
         (cornerValues [0.1; 6.3; 0.1]%float 0%float) noIndex noIndex
       = Returned isolines
       /\ Z.of_nat (List.length (fst triangleRun)) = totalBarycenters isolines
       /\ Z.of_nat (List.length (snd triangleRun)) = expectedEdges isolines
       /\ forall before i after,
            isolines = before ++ i :: after -> open i = false ->
            In ((totalBarycenters before + size i - 1)%Z,
                totalBarycenters before) (snd triangleRun).
Proof.
  split; [vm_compute; reflexivity|].
  apply (@polyline_counts float binary64 singleTriangle trianglePositions
           (cornerValues [0.1; 6.3; 0.1]%float 0%float) noIndex noIndex).
  vm_compute. reflexivity.
Defined.

(* ================================================================== *)
(** * The barycentric parameter *)
(* ================================================================== *)

(** C10, the claim as stated fails in binary64: for the finite values
    119.38052083641215 and 120.38052083641215 a crossing is reported with
    a parameter above 1 (the multiple of 2 pi computed, 38 pi, rounds to a
    double just below the first value); the point built from it, between
    a tail at x = 0 and a tip at x = 1, has a negative x. *)
Lemma bary_above_one_in_binary64 :
  let val1 := 0x1.dd85a7410f58dp+6%float in
  let val2 := 0x1.e185a7410f58dp+6%float in
  crossesModulo2Pi val1 val2 = Some 1.0000000000000142%float
  /\ (1 <? 1.0000000000000142)%float = true
  /\ (x3 (isoPoint singleTriangle trianglePositions
                   (0%nat, 1.0000000000000142%float)) <? 0)%float = true.
Proof. vm_compute. repeat split. Qed.

(** In binary64 the parameter is not even a number when the differences
    overflow. *)
Lemma bary_nan_on_overflow :
  crossesModulo2Pi (-1e308)%float 1e308%float = Some nan.
Proof. vm_compute. reflexivity. Qed.

Section ExactPolylines.
Local Open Scope R_scope.

(** C10, as amended: in exact real arithmetic, whenever a crossing is
    reported the parameter lies in [0, 1], and every point the polyline
    extraction returns is [bary * tail + (1 - bary) * tip] for a halfedge
    and a parameter [bary] in [0, 1] reported on its edge: a convex
    combination of the two positions. *)
Theorem exact_bary_in_unit_interval :
  (forall val1 val2 bary : R,
      crossesModulo2Pi val1 val2 = Some bary -> 0 <= bary <= 1)
  /\ (forall (mesh : SurfaceMesh) (vertexPositions : Vertex -> Vector3 R)
             (values : Corner -> R) (stripesIndices fieldIndices : Face -> Z)
             (pts : list (Vector3 R)) (es : list (Z * Z)),
         extractPolylinesFromStripePattern mesh vertexPositions values
           stripesIndices fieldIndices = Returned (pts, es) ->
         Forall (fun p =>
                   exists (h : Halfedge) (bary : R),
                     crossesModulo2Pi (values (corner h))
                                      (values (corner (heNext mesh h)))
                     = Some bary
                     /\ 0 <= bary <= 1
                     /\ p = add3 (scale3 bary
                                    (vertexPositions (tailVertex mesh h)))
                                 (scale3 (1 - bary)
                                    (vertexPositions (tipVertex mesh h))))
                pts).
Proof.
  split.
  - intros val1 val2 bary Hc. now apply crossing_bary_exact in Hc.
  - intros mesh vertexPositions values stripesIndices fieldIndices pts es.
    unfold extractPolylinesFromStripePattern.
    destruct (extractIsolinesFromStripePattern mesh values stripesIndices
                fieldIndices) as [isolines| |] eqn:Eiso; try discriminate.
    intros Hret.
    assert (Hp : fst (polylines mesh vertexPositions isolines) = pts).
    { assert (Hq : polylines mesh vertexPositions isolines = (pts, es))
        by congruence.
      now rewrite Hq. }
    subst pts. rewrite polylines_points.
    apply Forall_map. apply Forall_flat_map.
    eapply Forall_impl;
      [|exact (extracted_isolines_wellFormed _ _ _ _ Eiso)].
    intros i [_ Hall]. eapply Forall_impl; [|exact Hall].
    intros [h bary] Hc. exists h, bary. unfold crossingPoint in Hc.
    simpl in Hc. split; [exact Hc|]. split; [|reflexivity].
    now apply crossing_bary_exact in Hc.
Qed.


Lemma exact_triangle_run :
  extractPolylinesFromStripePattern singleTriangle exactPositions
    (cornerValues [0; 1; 0] 0) noIndex noIndex
  = Returned ([ isoPoint singleTriangle exactPositions (0%nat, 1);
                isoPoint singleTriangle exactPositions (1%nat, 0) ],
              [ (0%Z, 1%Z) ]).
Proof.
  cbv -[crossesModulo2Pi exactR Rplus Rmult Rminus Rdiv Ropp IZR Rtrigo1.PI].
  rewrite crossing_0_1_exact.
  cbv -[crossesModulo2Pi exactR Rplus Rmult Rminus Rdiv Ropp IZR Rtrigo1.PI].
  rewrite crossing_1_0_exact.
  cbv -[crossesModulo2Pi exactR Rplus Rmult Rminus Rdiv Ropp IZR Rtrigo1.PI].
  rewrite crossing_same_exact.
  reflexivity.
Qed.

Lemma exact_bary_in_unit_interval_witness :
  (crossesModulo2Pi 0 1 = Some 1 /\ 0 <= 1 <= 1)
  /\ Forall (fun p =>
               exists (h : Halfedge) (bary : R),
                 crossesModulo2Pi (cornerValues [0; 1; 0] 0 (corner h))
                   (cornerValues [0; 1; 0] 0
                      (corner (heNext singleTriangle h)))
                 = Some bary
                 /\ 0 <= bary <= 1
                 /\ p = add3 (scale3 bary
                                (exactPositions
                                   (tailVertex singleTriangle h)))
                             (scale3 (1 - bary)
                                (exactPositions
                                   (tipVertex singleTriangle h))))
            [ isoPoint singleTriangle exactPositions (0%nat, 1);
              isoPoint singleTriangle exactPositions (1%nat, 0) ].
Proof.
  split.
  - split; [exact crossing_0_1_exact|].
    exact (proj1 exact_bary_in_unit_interval 0 1 1 crossing_0_1_exact).
  - exact (proj2 exact_bary_in_unit_interval singleTriangle exactPositions
             (cornerValues [0; 1; 0] 0) noIndex noIndex _ _
             exact_triangle_run).
Defined.

End ExactPolylines.

(* ================================================================== *)
(** * The scenario of the specification *)
(* ================================================================== *)

(** C1, the claim as stated fails: with corner values (0.1, 6.2, 0.1) the
    extraction returns no isoline at all, because no crossing is reported on
    the edge from I to J: 6.2 is below 2 pi. *)
Lemma scenario_reports_no_crossing :
  crossesModulo2Pi 0.1%float 6.2%float = None
  /\ extractIsolinesFromStripePattern singleTriangle
       (cornerValues [0.1; 6.2; 0.1]%float 0%float) noIndex noIndex
     = Returned [].
Proof. vm_compute. split; reflexivity. Qed.

(** C1, as amended: for the single triangle with corner values
    (0.1, 6.2, 0.1) and all indices zero, no modulo-2 pi crossing is
    reported on any of the three edges, since the least multiple of 2 pi
    above 0.1 is 2 pi itself and 6.2 is below it; the seed face has zero
    exits and the extraction returns no isoline. *)
Theorem scenario_single_triangle :
  let values := cornerValues [0.1; 6.2; 0.1]%float 0%float in
  (6.2 <? twoPI)%float = true
  /\ (forall h, In h (adjacentHalfedges singleTriangle 0) ->
        crossesModulo2Pi (values (corner h))
                         (values (corner (heNext singleTriangle h)))
        = None)
  /\ exitsPerSeed singleTriangle values noIndex noIndex = [(0, 0%Z)]
  /\ extractIsolinesFromStripePattern singleTriangle values noIndex noIndex
     = Returned [].
Proof.
  split; [vm_compute; reflexivity|]. split.
  - intros h Hin. vm_compute in Hin.
    destruct Hin as [<- | [<- | [<- | []]]]; vm_compute; reflexivity.
  - vm_compute. split; reflexivity.
Qed.

(* ================================================================== *)
(** * Crossings exactly at a corner value *)
(* ================================================================== *)

(** C2: at the corner values 0 and 1 the source reports a crossing, with
    parameter 1, in binary64 and in exact arithmetic alike, although no
    multiple of 2 pi lies strictly between 0 and 1: the multiple found is
    the corner value 0 itself. *)
Theorem crossing_reported_at_corner_value :
  crossesModulo2Pi 0%float 1%float = Some 1%float
  /\ crossesModulo2Pi 0%R 1%R = Some 1%R
  /\ forall k : Z, ~ (0 < 2 * Rtrigo1.PI * IZR k < 1)%R.
Proof.
  split; [vm_compute; reflexivity|].
  split; [exact crossing_0_1_exact | exact no_multiple_between_0_and_1].
Qed.

(* ================================================================== *)
(** * The out-pointer of computeOmega *)
(* ================================================================== *)

Section NullPointer.
Context {D : Type} `{Trig D}.
Variable geometry : Geometry D.
Variable directionField : Vertex -> Vector2 D.

Lemma assign_same (fr : Frame) (p : Local) (b : bool) :
  assign fr p b p = Some b.
Proof. unfold assign. now destruct p. Qed.

Lemma computeOmega_null (frequencies : Vertex -> D) (e : Edge) (fr : Frame) :
  computeOmega geometry directionField frequencies e None fr = None.
Proof. reflexivity. Qed.

Lemma computeOmega_nonnull (frequencies : Vertex -> D) (e : Edge)
      (p : Local) (fr : Frame) :
  exists omega b,
    computeOmega geometry directionField frequencies e (Some p) fr
    = Some (omega, assign fr p b).
Proof. unfold computeOmega. eauto. Qed.

Lemma edgeTriplets_returns (branchIndices : Face -> Z)
      (frequencies : Vertex -> D) (e : Edge) :
  exists ts,
    edgeTriplets geometry directionField branchIndices frequencies e
    = Some ts.
Proof.
  unfold edgeTriplets.
  destruct (computeOmega_nonnull frequencies e crossesSheet noLocals)
    as (omega & b & ->).
  rewrite assign_same. eauto.
Qed.

Lemma edgeLoop_returns (branchIndices : Face -> Z)
      (frequencies : Vertex -> D) (es : list Edge)
      (triplets : list (Triplet D)) :
  exists ts,
    edgeLoop geometry directionField branchIndices frequencies es triplets
    = Some ts.
Proof.
  revert triplets. induction es as [|e es IH]; intros triplets;
    cbn [edgeLoop].
  - eauto.
  - destruct (edgeTriplets_returns branchIndices frequencies e) as [ts ->].
    apply IH.
Qed.

Lemma buildVertexEnergyMatrix_returns (branchIndices : Face -> Z)
      (frequencies : Vertex -> D) :
  exists A,
    buildVertexEnergyMatrix geometry directionField branchIndices frequencies
    = Some A.
Proof.
  unfold buildVertexEnergyMatrix.
  destruct (edgeLoop_returns branchIndices frequencies
              (edges (mesh geometry)) []) as [ts ->].
  eauto.
Qed.

Lemma faceCoordinates_returns (frequencies : Vertex -> D)
      (parameterization : Vertex -> Vector2 D) (f : Face)
      (out : (Corner -> D) * (Face -> Z)) :
  exists out',
    faceCoordinates geometry directionField frequencies parameterization
                    f out
    = Some out'.
Proof.
  unfold faceCoordinates.
  destruct (computeOmega_nonnull frequencies
              (heEdge (mesh geometry) (faceHalfedge (mesh geometry) f))
              crossesSheetsIJ noLocals) as (o1 & b1 & ->).
  destruct (computeOmega_nonnull frequencies
              (heEdge (mesh geometry)
                 (heNext (mesh geometry) (faceHalfedge (mesh geometry) f)))
              crossesSheetsJK (assign noLocals crossesSheetsIJ b1))
    as (o2 & b2 & ->).
  destruct (computeOmega_nonnull frequencies
              (heEdge (mesh geometry)
                 (heNext (mesh geometry)
                    (heNext (mesh geometry)
                       (faceHalfedge (mesh geometry) f))))
              crossesSheetsKI
              (assign (assign noLocals crossesSheetsIJ b1)
                      crossesSheetsJK b2))
    as (o3 & b3 & ->).
  unfold assign. simpl. eauto.
Qed.

Lemma computeTextureCoordinates_returns (frequencies : Vertex -> D)
      (parameterization : Vertex -> Vector2 D) :
  exists out,
    computeTextureCoordinates geometry directionField frequencies
                              parameterization
    = Some out.
Proof.
  unfold computeTextureCoordinates.
  generalize (fun _ : Corner => fromZ 0, fun _ : Face => 0%Z).
  induction (faces (mesh geometry)) as [|f fs IH]; intros out;
    cbn [faceCoordinatesLoop].
  - eauto.
  - destruct (faceCoordinates_returns frequencies parameterization f out)
      as [out' ->].
    apply IH.
Qed.

End NullPointer.

(** C9: [computeOmega] writes through [crossesSheets] whatever it is, so a
    call with the default [nullptr] is undefined and a call with the
    address of a local is not; the energy assembly, the texture-coordinate
    extraction and the whole pipeline only make calls of the second kind
    and always come back with a result. *)
Theorem computeOmega_pointer_safety (D : Type) (S : Scalar D) (T : Trig D) :
  (forall geometry directionField frequencies e fr,
      computeOmega geometry directionField frequencies e None fr = None)
  /\ (forall geometry directionField frequencies e p fr,
         exists omega b,
           computeOmega geometry directionField frequencies e (Some p) fr
           = Some (omega, assign fr p b))
  /\ (forall geometry directionField branchIndices frequencies,
         exists A,
           buildVertexEnergyMatrix geometry directionField branchIndices
                                   frequencies
           = Some A)
  /\ (forall geometry directionField frequencies parameterization,
         exists out,
           computeTextureCoordinates geometry directionField frequencies
                                     parameterization
           = Some out)
  /\ (forall computeFaceIndex solver geometry frequencies directionField,
         exists out,
           computeStripePattern computeFaceIndex solver geometry frequencies
                                directionField
           = Some out).
Proof.
  split; [reflexivity|].
  split; [intros; apply computeOmega_nonnull|].
  split; [intros; apply buildVertexEnergyMatrix_returns|].
  split; [intros; apply computeTextureCoordinates_returns|].
  intros computeFaceIndex solver geometry frequencies directionField.
  unfold computeStripePattern, computeParameterization.
  destruct (buildVertexEnergyMatrix_returns geometry directionField
              (computeFaceIndex geometry directionField 2%Z)
              (fun v => mul twoPI (frequencies v))) as [A ->].
  match goal with
  | |- context [computeTextureCoordinates ?g ?d ?f ?p] =>
      destruct (computeTextureCoordinates_returns g d f p) as [[tc zi] ->]
  end.
  eauto.
Qed.

(* ================================================================== *)
(** * The cotan weight of an edge *)
(* ================================================================== *)

Section CotanWeight.
Context {D : Type} `{Trig D}.
Variable geometry : Geometry D.
Variable directionField : Vertex -> Vector2 D.
Variable branchIndices : Face -> Z.

Local Abbreviation cotanWeightSum := (cotanWeightSum geometry branchIndices).

Lemma cotanWeight_sum (e : Edge) :
  cotanWeight geometry branchIndices e = cotanWeightSum e.
Proof.
  unfold cotanWeight, cotanWeightSum, incidentTriangles.
  destruct (edgeIsBoundary (mesh geometry) e); simpl;
    destruct (branchIndices
                (heFace (mesh geometry) (edgeHalfedge (mesh geometry) e))
              =? 0)%Z; simpl; try reflexivity;
    destruct (branchIndices
                (heFace (mesh geometry)
                   (heTwin (mesh geometry)
                      (edgeHalfedge (mesh geometry) e))) =? 0)%Z;
    reflexivity.
Qed.

Lemma edgeTriplets_diagonal (frequencies : Vertex -> D) (e : Edge) :
  exists i j rest,
    edgeTriplets geometry directionField branchIndices frequencies e
    = Some (tr (i + 0) (i + 0) (cotanWeightSum e)
            :: tr (i + 1) (i + 1) (cotanWeightSum e)
            :: tr (j + 0) (j + 0) (cotanWeightSum e)
            :: tr (j + 1) (j + 1) (cotanWeightSum e) :: rest).
Proof.
  unfold edgeTriplets.
  destruct (computeOmega_nonnull geometry directionField frequencies e
              crossesSheet noLocals) as (omega & b & ->).
  rewrite assign_same, cotanWeight_sum. eauto.
Qed.

End CotanWeight.

(** C8: for every edge, the weight [w] the energy assembler puts on the
    diagonal is the sum of the cotan weights of the one or two triangles
    incident to the edge, a triangle counting exactly when its branch index
    is 0, and the second triangle being there exactly when the edge is not
    a boundary edge. *)
Theorem cotan_weight_of_regular_triangles
        (D : Type) (S : Scalar D) (T : Trig D)
        (geometry : Geometry D) (directionField : Vertex -> Vector2 D)
        (branchIndices : Face -> Z) (frequencies : Vertex -> D) (e : Edge) :
  cotanWeight geometry branchIndices e
  = fold_left add
      (map (halfedgeCotanWeights geometry)
           (filter (fun h =>
                      (branchIndices (heFace (mesh geometry) h) =? 0)%Z)
                   (incidentTriangles geometry e)))
      (fromZ 0)
  /\ exists i j rest,
       edgeTriplets geometry directionField branchIndices frequencies e
       = Some (tr (i + 0) (i + 0) (cotanWeight geometry branchIndices e)
               :: tr (i + 1) (i + 1) (cotanWeight geometry branchIndices e)
               :: tr (j + 0) (j + 0) (cotanWeight geometry branchIndices e)
               :: tr (j + 1) (j + 1) (cotanWeight geometry branchIndices e)
               :: rest).
Proof.
  split; [apply cotanWeight_sum|].
  rewrite cotanWeight_sum. apply edgeTriplets_diagonal.
Qed.

(* ================================================================== *)
(** * Symmetry of the energy matrix *)
(* ================================================================== *)

Section Symmetry.
Context {D : Type} `{Trig D}.


Lemma valuesAt_app (r c : Z) (ts us : list (Triplet D)) :
  valuesAt r c (ts ++ us) = valuesAt r c ts ++ valuesAt r c us.
Proof. unfold valuesAt. now rewrite filter_app, map_app. Qed.

Lemma mirrored_app (ts us : list (Triplet D)) :
  mirrored ts -> mirrored us -> mirrored (ts ++ us).
Proof.
  intros Hts Hus r c. rewrite !valuesAt_app. now rewrite Hts, Hus.
Qed.

Lemma valuesAt_cons (r c : Z) (t : Triplet D) (ts : list (Triplet D)) :
  valuesAt r c (t :: ts)
  = (if tripletAt r c t then [snd t] else []) ++ valuesAt r c ts.
Proof. unfold valuesAt. simpl. now destruct (tripletAt r c t). Qed.

Lemma valuesAt_nil (r c : Z) : valuesAt r c (@nil (Triplet D)) = [].
Proof. reflexivity. Qed.

(** The twelve triplets of one edge, for any weight and any transport
    coefficients, at the even indices [2a] and [2b]. *)
Lemma edge_block_mirrored (a b : Z) (w x y x' y' : D) :
  let i := (2 * a)%Z in
  let j := (2 * b)%Z in
  mirrored
    [ tr (i + 0) (i + 0) w; tr (i + 1) (i + 1) w;
      tr (j + 0) (j + 0) w; tr (j + 1) (j + 1) w;
      tr (i + 0) (j + 0) x; tr (i + 1) (j + 0) y;
      tr (j + 0) (i + 0) x; tr (j + 0) (i + 1) y;
      tr (i + 0) (j + 1) y'; tr (i + 1) (j + 1) x';
      tr (j + 1) (i + 0) y'; tr (j + 1) (i + 1) x' ].
Proof.
  intros i j r c. rewrite !valuesAt_cons, !valuesAt_nil.
  unfold tripletAt, tr. cbn [fst snd]. subst i j.
  destruct (Z.eqb_spec (2 * a + 0) r); destruct (Z.eqb_spec (2 * a + 1) r);
    destruct (Z.eqb_spec (2 * b + 0) r); destruct (Z.eqb_spec (2 * b + 1) r);
    destruct (Z.eqb_spec (2 * a + 0) c); destruct (Z.eqb_spec (2 * a + 1) c);
    destruct (Z.eqb_spec (2 * b + 0) c); destruct (Z.eqb_spec (2 * b + 1) c);
    cbn [andb app];
    first [reflexivity | exfalso; lia].
Qed.

Variable geometry : Geometry D.
Variable directionField : Vertex -> Vector2 D.
Variable branchIndices : Face -> Z.
Variable frequencies : Vertex -> D.

Lemma edgeTriplets_mirrored (e : Edge) (ts : list (Triplet D)) :
  edgeTriplets geometry directionField branchIndices frequencies e = Some ts ->
  mirrored ts.
Proof.
  unfold edgeTriplets.
  destruct (computeOmega _ _ _ _ _ _) as [[omega fr]|]; [|discriminate].
  destruct (fr crossesSheet) as [crosses|]; [|discriminate].
  intros [= <-]. apply edge_block_mirrored.
Qed.

Lemma edgeLoop_mirrored (es : list Edge) (acc ts : list (Triplet D)) :
  edgeLoop geometry directionField branchIndices frequencies es acc = Some ts ->
  mirrored acc -> mirrored ts.
Proof.
  revert acc. induction es as [|e es IH]; intros acc; cbn [edgeLoop].
  - now intros [= <-].
  - destruct (edgeTriplets _ _ _ _ e) as [us|] eqn:E; [|discriminate].
    intros Hloop Hacc. apply (IH _ Hloop).
    apply mirrored_app; [exact Hacc|]. eapply edgeTriplets_mirrored; exact E.
Qed.

Lemma setIdentity_symmetric (n : Z) (r c : Z) :
  coeff (setIdentity (D := D) n n) r c = coeff (setIdentity (D := D) n n) c r.
Proof.
  simpl. rewrite (Z.eqb_sym c r).
  destruct (Z.eqb_spec r c) as [->|Hne]; reflexivity.
Qed.

End Symmetry.

(** C5: for every mesh and geometry, direction field, branch indices and
    frequencies, the energy matrix is assembled, and the matrix returned,
    with its regularization [1e-4 * I] added, equals its own transpose:
    it is square, and the coefficients at (r, c) and at (c, r) are the
    same. *)
Theorem energy_matrix_symmetric
        (D : Type) (S : Scalar D) (T : Trig D)
        (geometry : Geometry D) (directionField : Vertex -> Vector2 D)
        (branchIndices : Face -> Z) (frequencies : Vertex -> D) :
  exists A,
    buildVertexEnergyMatrix geometry directionField branchIndices frequencies
    = Some A
    /\ matrixEq A (transpose A).
Proof.
  unfold buildVertexEnergyMatrix.
  destruct (edgeLoop geometry directionField branchIndices frequencies
              (edges (mesh geometry)) []) as [ts|] eqn:Eloop.
  - eexists. split; [reflexivity|].
    assert (Hm : mirrored ts).
    { eapply edgeLoop_mirrored; [exact Eloop|]. intros r c. reflexivity. }
    split; [reflexivity|]. split; [reflexivity|].
    intros r c. cbn [coeff addMatrix scaleMatrix setFromTriplets transpose].
    fold (valuesAt r c ts). fold (valuesAt c r ts).
    rewrite (Hm r c).
    now rewrite (setIdentity_symmetric (2 * Z.of_nat (nVertices (mesh geometry)))
                   r c).
  - destruct (edgeLoop_returns geometry directionField branchIndices
                frequencies (edges (mesh geometry)) []) as [ts Hts].
    congruence.
Qed.

(* ================================================================== *)
(** * The one-form and its sheet-crossing flag *)
(* ================================================================== *)

Section OmegaFlag.
Context {D : Type} `{Trig D}.
Local Open Scope scalar_scope.

(** What the flag needs of the scalar type: 1 is not below 0, and -1 is. *)
Hypothesis one_not_negative : (fromZ 1 <? fromZ 0) = false.
Hypothesis minus_one_negative : (fromZ (-1) <? fromZ 0) = true.

(** The value and the flag of [computeOmega], with the sign [s] decided by
    the test [alignment > 0] alone. *)
Lemma computeOmega_flag
      (geometry : Geometry D) (directionField : Vertex -> Vector2 D)
      (frequencies : Vertex -> D) (e : Edge) (p : Local) (fr : Frame) :
  let crosses := negb (alignment geometry directionField e >? fromZ 0) in
  let s := if crosses then fromZ (-1) else fromZ 1 in
  let l := edgeLengths geometry e in
  let fI := frequencies (firstVertex (mesh geometry) e) in
  let fJ := frequencies (secondVertex (mesh geometry) e) in
  let phiI := arg (representativeI geometry directionField e) in
  let phiJ := arg (scale2 s (representativeJ geometry directionField e)) in
  let thetaI :=
    arg (halfedgeVectorsInVertex geometry (edgeHalfedge (mesh geometry) e)) in
  let thetaJ :=
    thetaI + arg (transportVectorsAlongHalfedge geometry
                    (edgeHalfedge (mesh geometry) e)) in
  computeOmega geometry directionField frequencies e (Some p) fr
  = Some (l / fromZ 2 * (fI * cos (phiI - thetaI) + fJ * cos (phiJ - thetaJ)),
          assign fr p crosses).
Proof.
  unfold computeOmega, alignment, representativeI, representativeJ.
  cbv zeta.
  match goal with
  | |- context [ltb (fromZ 0) ?x] => destruct (ltb (fromZ 0) x)
  end; cbn [negb].
  - now rewrite one_not_negative.
  - now rewrite minus_one_negative.
Qed.

End OmegaFlag.

Section FloatSign.
Local Open Scope float_scope.

(** In binary64 the test [0 < a] fails exactly when [a] is at most 0 or is
    NaN. *)
Lemma not_positive_binary64 (a : float) :
  (0 <? a) = false <-> ((a <=? 0) = true \/ Prim2SF a = S754_nan).
Proof.
  rewrite FloatAxioms.ltb_spec, FloatAxioms.leb_spec.
  change (Prim2SF 0) with (S754_zero false).
  destruct (Prim2SF a) as [sg|sg| |sg m ex]; cbn.
  - split; [intros _; now left | reflexivity].
  - destruct sg; cbn; split; try tauto; try discriminate.
    intros [Habs|Habs]; discriminate.
  - split; [intros _; now right | reflexivity].
  - destruct sg; cbn; split; try tauto; try discriminate.
    intros [Habs|Habs]; discriminate.
Qed.

End FloatSign.

(** C7, as amended: [computeOmega] returns
    (l/2) (fI cos(phiI - thetaI) + fJ cos(phiJ - thetaJ)), with phiI the
    argument of the representative at I, phiJ the argument of the
    representative at J multiplied by the sign s, thetaI the angle of the
    edge in the basis of I and thetaJ = thetaI + the angle of the transport;
    it sets the flag exactly when the alignment is not greater than zero,
    and s is -1 in that case, 1 otherwise.  This holds in binary64 for
    every libm, where "not greater than zero" means negative, zero or NaN,
    and in exact arithmetic, where it means negative or zero. *)
Theorem computeOmega_value_and_flag :
  (forall (libm : Trig float) (geometry : Geometry float)
          (directionField : Vertex -> Vector2 float)
          (frequencies : Vertex -> float) (e : Edge) (p : Local) (fr : Frame),
     let crosses :=
       negb (0 <? alignment geometry directionField e)%float in
     let s := (if crosses then -1 else 1)%float in
     let l := edgeLengths geometry e in
     let fI := frequencies (firstVertex (mesh geometry) e) in
     let fJ := frequencies (secondVertex (mesh geometry) e) in
     let phiI := arg (representativeI geometry directionField e) in
     let phiJ :=
       arg (scale2 s (representativeJ geometry directionField e)) in
     let thetaI :=
       arg (halfedgeVectorsInVertex geometry
              (edgeHalfedge (mesh geometry) e)) in
     let thetaJ :=
       (thetaI + arg (transportVectorsAlongHalfedge geometry
                        (edgeHalfedge (mesh geometry) e)))%float in
     computeOmega geometry directionField frequencies e (Some p) fr
     = Some ((l / 2 * (fI * cos (phiI - thetaI)
                       + fJ * cos (phiJ - thetaJ)))%float,
             assign fr p crosses))
  /\ (forall a : float,
        negb (0 <? a)%float = true
        <-> ((a <=? 0)%float = true \/ Prim2SF a = S754_nan))
  /\ (forall (geometry : Geometry R) (directionField : Vertex -> Vector2 R)
             (frequencies : Vertex -> R) (e : Edge) (p : Local) (fr : Frame),
      exists (crosses : bool) (s : R),
        (crosses = true <-> (alignment geometry directionField e <= 0)%R)
        /\ s = (if crosses then -1 else 1)%R
        /\ let l := edgeLengths geometry e in
           let fI := frequencies (firstVertex (mesh geometry) e) in
           let fJ := frequencies (secondVertex (mesh geometry) e) in
           let phiI := arg (representativeI geometry directionField e) in
           let phiJ :=
             arg (scale2 s (representativeJ geometry directionField e)) in
           let thetaI :=
             arg (halfedgeVectorsInVertex geometry
                    (edgeHalfedge (mesh geometry) e)) in
           let thetaJ :=
             (thetaI + arg (transportVectorsAlongHalfedge geometry
                              (edgeHalfedge (mesh geometry) e)))%R in
           computeOmega geometry directionField frequencies e (Some p) fr
           = Some ((l / 2 * (fI * Rtrigo_def.cos (phiI - thetaI)
                             + fJ * Rtrigo_def.cos (phiJ - thetaJ)))%R,
                   assign fr p crosses)).
Proof.
  split; [|split].
  - intros libm geometry directionField frequencies e p fr.
    exact (@computeOmega_flag float binary64 libm eq_refl eq_refl
             geometry directionField frequencies e p fr).
  - intros a. rewrite negb_true_iff. apply not_positive_binary64.
  - intros geometry directionField frequencies e p fr.
    assert (Hone : ltb (fromZ 1) (fromZ 0 : R) = false).
    { cbn. unfold Exact.ltb. destruct (Rlt_dec 1 0); [lra | reflexivity]. }
    assert (Hminus : ltb (fromZ (-1)) (fromZ 0 : R) = true).
    { cbn. unfold Exact.ltb. destruct (Rlt_dec (-1) 0); [reflexivity | lra]. }
    pose proof (@computeOmega_flag R exactR exactTrig Hone Hminus
                  geometry directionField frequencies e p fr) as Hval.
    cbv zeta in Hval.
    exists (negb (ltb (fromZ 0) (alignment geometry directionField e))).
    eexists. split; [|split; [reflexivity|]].
    + cbn [ltb fromZ exactR]. unfold Exact.ltb.
      destruct (Rlt_dec 0 (alignment geometry directionField e)); cbn [negb];
        split; try discriminate; try reflexivity; lra.
    + cbv zeta. exact Hval.
Qed.

Section AlignmentZero.

Lemma one_not_negative_exact : ltb (fromZ 1) (fromZ 0 : R) = false.
Proof.
  cbn. unfold Exact.ltb. destruct (Rlt_dec 1 0); [lra | reflexivity].
Qed.

Lemma minus_one_negative_exact : ltb (fromZ (-1)) (fromZ 0 : R) = true.
Proof.
  cbn. unfold Exact.ltb. destruct (Rlt_dec (-1) 0); [reflexivity | lra].
Qed.

(** In exact arithmetic the representatives of the constant field are both
    (1, 0), and the quarter turn makes the alignment 0. *)
Lemma alignment_quarterTurn_exact :
  alignment (D := R) quarterTurnGeometry constantField 0%nat = 0%R.
Proof.
  unfold alignment, representativeI, representativeJ, fromAngle, arg.
  cbn. unfold Exact.atan2.
  destruct (Rlt_dec 0 1) as [_|Habs]; [|lra].
  replace (0 / 1)%R with 0%R by field. rewrite atan_0.
  replace (0 / 2)%R with 0%R by field. rewrite cos_0, sin_0.
  unfold dot, cmul. cbn. ring.
Qed.

(** In binary64 just the same, for a libm that is exact at 0: all the
    numbers met are 0 and 1. *)
Lemma alignment_quarterTurn_binary64 (libm : Trig float) :
  atan2 0%float 1%float = 0%float ->
  cos 0%float = 1%float -> sin 0%float = 0%float ->
  alignment (D := float) quarterTurnGeometry constantField 0%nat = 0%float.
Proof.
  destruct libm as [c s a q r]. cbn [cos sin atan2].
  intros Ha Hc Hs.
  unfold alignment, representativeI, representativeJ, fromAngle, arg.
  cbn [cos sin atan2 constantField x2 y2].
  change (a (fromZ 0) (fromZ 1)) with (a 0%float 1%float). rewrite Ha.
  change (div 0%float (fromZ 2)) with 0%float. rewrite Hc, Hs.
  vm_compute. reflexivity.
Qed.

(** C7, the claim as stated fails: across a quarter turn of the tangent
    basis, with a field of the same coordinates at both ends, the alignment
    is exactly zero, not negative, and the flag is set all the same.  This
    is so in exact arithmetic, and in binary64 for every libm that returns
    the exact values atan2(0, 1) = 0, cos(0) = 1 and sin(0) = 0. *)
Lemma flag_set_at_zero_alignment :
  (alignment (D := R) quarterTurnGeometry constantField 0%nat = 0%R
   /\ exists omega,
        computeOmega (D := R) quarterTurnGeometry constantField
                     (fun _ => 1%R) 0%nat (Some crossesSheet) noLocals
        = Some (omega, assign noLocals crossesSheet true))
  /\ (forall libm : Trig float,
        atan2 0%float 1%float = 0%float ->
        cos 0%float = 1%float -> sin 0%float = 0%float ->
        alignment (D := float) quarterTurnGeometry constantField 0%nat
        = 0%float
        /\ exists omega,
             computeOmega (D := float) quarterTurnGeometry constantField
                          (fun _ => 1%float) 0%nat (Some crossesSheet)
                          noLocals
             = Some (omega, assign noLocals crossesSheet true)).
Proof.
  split.
  - split; [exact alignment_quarterTurn_exact|].
    pose proof (@computeOmega_flag R exactR exactTrig
                  one_not_negative_exact minus_one_negative_exact
                  quarterTurnGeometry constantField (fun _ => 1%R) 0%nat
                  crossesSheet noLocals) as Hval.
    cbv zeta in Hval. rewrite alignment_quarterTurn_exact in Hval.
    assert (Hzero : ltb (fromZ 0) (0%R) = false).
    { cbn. unfold Exact.ltb. destruct (Rlt_dec 0 0); [lra | reflexivity]. }
    rewrite Hzero in Hval. cbn [negb] in Hval. eauto.
  - intros libm Ha Hc Hs.
    split; [now apply alignment_quarterTurn_binary64|].
    pose proof (@computeOmega_flag float binary64 libm eq_refl eq_refl
                  quarterTurnGeometry constantField (fun _ => 1%float) 0%nat
                  crossesSheet noLocals) as Hval.
    cbv zeta in Hval.
    rewrite (@alignment_quarterTurn_binary64 libm Ha Hc Hs) in Hval.
    change (negb (ltb (fromZ 0) 0%float)) with true in Hval. eauto.
Qed.

End AlignmentZero.

(* ================================================================== *)
(** * Further properties of the crossing test *)
(* ================================================================== *)

Section CrossingProperties.
Local Open Scope R_scope.

Lemma isovalOf_least (v : R) (k : Z) :
  v <= 2 * Rtrigo1.PI * IZR k -> isovalOf v <= 2 * Rtrigo1.PI * IZR k.
Proof.
  intros Hk. pose proof twoPI_pos as Hpos. unfold isovalOf.
  apply Rmult_le_compat_l; [lra|]. apply IZR_le. apply ceilZ_least.
  apply Rmult_le_reg_l with (r := 2 * Rtrigo1.PI); [lra|].
  replace (2 * Rtrigo1.PI * (v / (2 * Rtrigo1.PI))) with v by (field; lra).
  exact Hk.
Qed.

Lemma ceilZ_shift (x : R) (k : Z) :
  Exact.ceilZ (x + IZR k) = (Exact.ceilZ x + k)%Z.
Proof.
  unfold Exact.ceilZ.
  assert (Hup : up (- (x + IZR k)) = (up (- x) - k)%Z).
  { symmetry. apply tech_up; rewrite minus_IZR;
      destruct (archimed (- x)) as [Hgt Hle]; lra. }
  rewrite Hup. lia.
Qed.

Lemma isovalOf_shift (v : R) (k : Z) :
  isovalOf (v + 2 * Rtrigo1.PI * IZR k) = isovalOf v + 2 * Rtrigo1.PI * IZR k.
Proof.
  unfold isovalOf. pose proof twoPI_pos as Hpos.
  replace ((v + 2 * Rtrigo1.PI * IZR k) / (2 * Rtrigo1.PI))
    with (v / (2 * Rtrigo1.PI) + IZR k) by (field; lra).
  rewrite ceilZ_shift, plus_IZR. ring.
Qed.

(** X1: in exact arithmetic a crossing is reported exactly when an integer
    multiple of 2 pi lies in the half-open range from the smaller value
    (included) to the larger value (excluded). *)
Theorem crossing_iff_multiple_in_range (val1 val2 : R) :
  (exists bary, crossesModulo2Pi val1 val2 = Some bary)
  <-> exists k : Z,
        Rmin val1 val2 <= 2 * Rtrigo1.PI * IZR k < Rmax val1 val2.
Proof.
  split.
  - intros [bary Hc]. apply crossing_bary_exact in Hc as (_ & k & _ & Hk).
    now exists k.
  - intros [k [Hlo Hhi]]. rewrite crossesModulo2Pi_exact.
    destruct (Req_dec_T val1 val2) as [->|Hne].
    { rewrite Rmin_left, Rmax_left in * by lra. lra. }
    destruct (Rlt_dec val1 val2) as [Hlt|Hge].
    + rewrite Rmin_left in Hlo by lra. rewrite Rmax_right in Hhi by lra.
      pose proof (@isovalOf_least _ _ Hlo).
      destruct (Rlt_dec (isovalOf val1) val2); [eauto | lra].
    + rewrite Rmin_right in Hlo by lra. rewrite Rmax_left in Hhi by lra.
      pose proof (@isovalOf_least _ _ Hlo).
      destruct (Rlt_dec (isovalOf val2) val1); [eauto | lra].
Qed.

(** X2: in exact arithmetic the parameter reported is the weight of the
    first value in the interpolation that reaches the least multiple of
    2 pi not below the smaller value. *)
Theorem crossing_interpolates_least_multiple (val1 val2 bary : R) :
  crossesModulo2Pi val1 val2 = Some bary ->
  exists k : Z,
    bary * val1 + (1 - bary) * val2 = 2 * Rtrigo1.PI * IZR k
    /\ Rmin val1 val2 <= 2 * Rtrigo1.PI * IZR k
    /\ forall k' : Z,
         Rmin val1 val2 <= 2 * Rtrigo1.PI * IZR k' -> (k <= k')%Z.
Proof.
  rewrite crossesModulo2Pi_exact. pose proof twoPI_pos as Hpos.
  assert (Hleast : forall v k',
             v <= 2 * Rtrigo1.PI * IZR k' ->
             (Exact.ceilZ (v / (2 * Rtrigo1.PI)) <= k')%Z).
  { intros v k' Hk'. apply ceilZ_least.
    apply Rmult_le_reg_l with (r := 2 * Rtrigo1.PI); [lra|].
    replace (2 * Rtrigo1.PI * (v / (2 * Rtrigo1.PI))) with v by (field; lra).
    exact Hk'. }
  destruct (Req_dec_T val1 val2) as [|Hne]; [discriminate|].
  destruct (Rlt_dec val1 val2) as [Hlt|Hge].
  - destruct (Rlt_dec (isovalOf val1) val2) as [Hiso|]; [|discriminate].
    intros [= <-]. exists (Exact.ceilZ (val1 / (2 * Rtrigo1.PI))).
    fold (isovalOf val1). rewrite Rmin_left by lra.
    destruct (isovalOf_spec val1) as [Hlo _].
    split; [field; lra|]. split; [exact Hlo | apply Hleast].
  - destruct (Rlt_dec (isovalOf val2) val1) as [Hiso|]; [|discriminate].
    intros [= <-]. exists (Exact.ceilZ (val2 / (2 * Rtrigo1.PI))).
    fold (isovalOf val2). rewrite Rmin_right by lra.
    destruct (isovalOf_spec val2) as [Hlo _].
    split; [field; lra|]. split; [exact Hlo | apply Hleast].
Qed.

Lemma crossing_interpolates_least_multiple_witness :
  crossesModulo2Pi 0 1 = Some 1
  /\ exists k : Z,
       1 * 0 + (1 - 1) * 1 = 2 * Rtrigo1.PI * IZR k
       /\ Rmin 0 1 <= 2 * Rtrigo1.PI * IZR k
       /\ forall k' : Z, Rmin 0 1 <= 2 * Rtrigo1.PI * IZR k' -> (k <= k')%Z.
Proof.
  split; [exact crossing_0_1_exact|].
  exact (@crossing_interpolates_least_multiple 0 1 1 crossing_0_1_exact).
Defined.

(** X3: in exact arithmetic the crossing found on an edge does not depend
    on the direction in which the edge is examined: with the two values
    exchanged a crossing is reported again, with the complementary
    parameter. *)
Theorem crossing_reversed (val1 val2 bary : R) :
  crossesModulo2Pi val1 val2 = Some bary ->
  crossesModulo2Pi val2 val1 = Some (1 - bary).
Proof.
  rewrite !crossesModulo2Pi_exact.
  destruct (Req_dec_T val1 val2) as [|Hne]; [discriminate|].
  destruct (Req_dec_T val2 val1) as [Heq|_]; [now symmetry in Heq|].
  destruct (Rlt_dec val1 val2) as [Hlt|Hge].
  - destruct (Rlt_dec (isovalOf val1) val2) as [Hiso|]; [|discriminate].
    intros [= <-].
    destruct (Rlt_dec val2 val1) as [Habs|_]; [lra|].
    destruct (Rlt_dec (isovalOf val1) val2) as [_|Habs]; [|contradiction].
    f_equal. field. lra.
  - destruct (Rlt_dec (isovalOf val2) val1) as [Hiso|]; [|discriminate].
    intros [= <-].
    destruct (Rlt_dec val2 val1) as [_|Habs]; [|lra].
    destruct (Rlt_dec (isovalOf val2) val1) as [_|Habs]; [|contradiction].
    f_equal. field. lra.
Qed.

Lemma crossing_reversed_witness :
  crossesModulo2Pi 0 1 = Some 1 /\ crossesModulo2Pi 1 0 = Some (1 - 1).
Proof.
  split; [exact crossing_0_1_exact|].
  exact (@crossing_reversed 0 1 1 crossing_0_1_exact).
Defined.

(** X4: in exact arithmetic the crossing test is 2 pi-periodic: adding the
    same integer multiple of 2 pi to both values changes nothing. *)
Theorem crossing_periodic (val1 val2 : R) (k : Z) :
  crossesModulo2Pi (val1 + 2 * Rtrigo1.PI * IZR k)
                   (val2 + 2 * Rtrigo1.PI * IZR k)
  = crossesModulo2Pi val1 val2.
Proof.
  rewrite !crossesModulo2Pi_exact, !isovalOf_shift.
  set (c := 2 * Rtrigo1.PI * IZR k).
  destruct (Req_dec_T (val1 + c) (val2 + c)) as [Heq|Hne];
    destruct (Req_dec_T val1 val2) as [Heq'|Hne']; try reflexivity;
    try (exfalso; lra).
  destruct (Rlt_dec (val1 + c) (val2 + c)) as [Hlt|Hge];
    destruct (Rlt_dec val1 val2) as [Hlt'|Hge']; try (exfalso; lra).
  - destruct (Rlt_dec (isovalOf val1 + c) (val2 + c));
      destruct (Rlt_dec (isovalOf val1) val2);
      try reflexivity; try (exfalso; lra).
    f_equal. field. lra.
  - destruct (Rlt_dec (isovalOf val2 + c) (val1 + c));
      destruct (Rlt_dec (isovalOf val2) val1);
      try reflexivity; try (exfalso; lra).
    f_equal. field. lra.
Qed.

End CrossingProperties.

Section CrossingNaN.
Local Open Scope float_scope.

Lemma ltb_nan_l (x : float) : (nan <? x) = false.
Proof. rewrite FloatAxioms.ltb_spec. reflexivity. Qed.

Lemma ltb_nan_r (x : float) : (x <? nan) = false.
Proof.
  rewrite FloatAxioms.ltb_spec. change (Prim2SF nan) with S754_nan.
  now destruct (Prim2SF x) as [[|]| [|]| |[|] m e].
Qed.

Lemma eqb_nan_l (x : float) : (nan =? x) = false.
Proof. rewrite FloatAxioms.eqb_spec. reflexivity. Qed.

Lemma eqb_nan_r (x : float) : (x =? nan) = false.
Proof.
  rewrite FloatAxioms.eqb_spec. change (Prim2SF nan) with S754_nan.
  now destruct (Prim2SF x) as [[|]| [|]| |[|] m e].
Qed.

(** X5: in binary64 a NaN stripe value at either end of an edge never
    produces a crossing. *)
Theorem nan_never_crosses (v : float) :
  crossesModulo2Pi nan v = None /\ crossesModulo2Pi v nan = None.
Proof.
  unfold crossesModulo2Pi. cbn [eqb ltb mul div sub ceil binary64].
  split.
  - rewrite eqb_nan_l, ltb_nan_l, ltb_nan_r. reflexivity.
  - rewrite eqb_nan_r, ltb_nan_r.
    replace (twoPI * Binary64.ceil (nan / twoPI)) with nan
      by (vm_compute; reflexivity).
    rewrite ltb_nan_l. reflexivity.
Qed.

End CrossingNaN.

(* ================================================================== *)
(** * Further properties of the isoline extraction *)
(* ================================================================== *)

Section PointInvariant.
Context {D : Type} `{Scalar D}.
Variable mesh : SurfaceMesh.
Variable stripeValues : Corner -> D.
Variable stripesIndices fieldIndices : Face -> Z.

(** A property of crossing points that holds of every crossing reported on
    a halfedge of a regular face. *)
Variable P : Halfedge * D -> Prop.
Hypothesis P_regular :
  forall (g : Face) (h : Halfedge) (bary : D),
    isBoundaryLoop mesh g = false ->
    stripesIndices g = 0%Z -> fieldIndices g = 0%Z ->
    In h (adjacentHalfedges mesh g) ->
    crossesModulo2Pi (stripeValues (corner h))
                     (stripeValues (corner (heNext mesh h))) = Some bary ->
    P (h, bary).

Lemma firstCrossing_found (prev : Face) (hes : list Halfedge)
      (he : Halfedge) (bary : D) :
  firstCrossing mesh stripeValues prev hes = Some (he, bary) ->
  In he hes
  /\ crossesModulo2Pi (stripeValues (corner he))
                      (stripeValues (corner (heNext mesh he))) = Some bary.
Proof.
  induction hes as [|h hes IH]; simpl; [discriminate|].
  destruct (heFace mesh (heTwin mesh h) =? prev).
  - intros Hf. destruct (IH Hf). auto.
  - destruct (crossesModulo2Pi (stripeValues (corner h))
                (stripeValues (corner (heNext mesh h)))) as [b|] eqn:E.
    + intros Heq. inversion Heq; subst. auto.
    + intros Hf. destruct (IH Hf). auto.
Qed.

Lemma tracing_regular (t : Trace D) :
  tracing mesh stripesIndices fieldIndices t = true ->
  isBoundaryLoop mesh (curFace t) = false
  /\ stripesIndices (curFace t) = 0%Z /\ fieldIndices (curFace t) = 0%Z.
Proof.
  unfold tracing. intros E.
  apply andb_prop in E as [E E4]. apply andb_prop in E as [E E3].
  apply andb_prop in E as [E1 _].
  apply negb_true_iff in E1. apply Z.eqb_eq in E3, E4. tauto.
Qed.

Lemma traceStep_P (f : Face) (t : Trace D) :
  tracing mesh stripesIndices fieldIndices t = true ->
  Forall P (isoPts t) ->
  Forall P (isoPts (traceStep mesh stripeValues stripesIndices fieldIndices
                              f t)).
Proof.
  intros Et Hall.
  destruct (tracing_regular t Et) as (Hbl & Hsi & Hfi).
  unfold traceStep.
  destruct (firstCrossing _ _ _ _) as [[he bary]|] eqn:E; [|exact Hall].
  destruct (negb _ && _); [exact Hall|]. simpl.
  apply Forall_app. split; [exact Hall|]. constructor; [|constructor].
  apply firstCrossing_found in E as [Hin Hc].
  eapply P_regular; eassumption.
Qed.

Lemma trace_P (fuel : nat) (f : Face) (t t' : Trace D) :
  trace mesh stripeValues stripesIndices fieldIndices fuel f t = Some t' ->
  Forall P (isoPts t) -> Forall P (isoPts t').
Proof.
  revert t. induction fuel as [|fuel IH]; intros t; simpl.
  - destruct (tracing _ _ _ t); [discriminate|]. now intros [= <-].
  - destruct (tracing _ _ _ t) eqn:Et.
    + intros Htr Hall. eapply IH; [exact Htr|]. now apply traceStep_P.
    + now intros [= <-].
Qed.

Lemma seedLoop_P (f : Face) (hes : list Halfedge) (s s' : Seed D) :
  isBoundaryLoop mesh f = false ->
  stripesIndices f = 0%Z -> fieldIndices f = 0%Z ->
  incl hes (adjacentHalfedges mesh f) ->
  seedLoop mesh stripeValues stripesIndices fieldIndices f s hes = Some s' ->
  Forall P (barycenters (iso s)) -> Forall P (barycenters (iso s')).
Proof.
  intros Hbl Hsi Hfi. revert s.
  induction hes as [|h hes IH]; intros s Hincl; simpl.
  - now intros [= <-].
  - destruct (seedStep _ _ _ _ _ _ _) as [s1|] eqn:E; [|discriminate].
    intros Hloop Hall. apply (IH s1); auto.
    { intros x Hx. apply Hincl. now right. }
    unfold seedStep in E.
    destruct (crossesModulo2Pi _ _) as [bary|] eqn:Ec.
    + destruct (trace _ _ _ _ _ _ _) as [t|] eqn:Et; [|discriminate].
      injection E as <-. simpl.
      assert (Hpts : Forall P (isoPts t)).
      { eapply trace_P; [exact Et|]. simpl. constructor; [|constructor].
        eapply P_regular; [exact Hbl | exact Hsi | exact Hfi | | exact Ec].
        apply Hincl. now left. }
      destruct (List.length (barycenters (iso s)) =? 0);
        apply Forall_app; split; auto.
      now apply Forall_rev.
    + now injection E as <-.
Qed.

Lemma faceLoop_P (fs : list Face) (vis : FaceFlags)
      (isolines result : list (Isoline D)) :
  incl fs (faces mesh) ->
  faceLoop mesh stripeValues stripesIndices fieldIndices fs vis isolines
  = Returned result ->
  Forall (fun i => Forall P (barycenters i)) isolines ->
  Forall (fun i => Forall P (barycenters i)) result.
Proof.
  revert vis isolines.
  induction fs as [|f fs IH]; intros vis isolines Hincl; simpl.
  - now intros [= <-].
  - assert (Hincl' : incl fs (faces mesh))
      by (intros x Hx; apply Hincl; now right).
    destruct (vis f || negb (stripesIndices f =? 0)%Z
              || negb (fieldIndices f =? 0)%Z) eqn:Eskip; [now apply IH|].
    apply orb_false_iff in Eskip as [Eskip Hfi].
    apply orb_false_iff in Eskip as [_ Hsi].
    apply negb_false_iff, Z.eqb_eq in Hsi, Hfi.
    assert (Hbl : isBoundaryLoop mesh f = false).
    { assert (Hin : In f (faces mesh)) by (apply Hincl; now left).
      unfold faces in Hin. apply in_seq in Hin.
      unfold isBoundaryLoop. apply Nat.leb_gt. lia. }
    destruct (traceFace _ _ _ _ _ _) as [s|] eqn:Eseed; [|discriminate].
    destruct (2 <? nbOfPieces s)%Z; [discriminate|].
    intros Hloop Hall. eapply IH; [exact Hincl' | exact Hloop |].
    assert (Hs : Forall P (barycenters (iso s))).
    { unfold traceFace in Eseed.
      eapply seedLoop_P;
        [exact Hbl | exact Hsi | exact Hfi | apply incl_refl | exact Eseed |].
      constructor. }
    destruct (0 <? nbOfPieces s)%Z; [|exact Hall].
    apply Forall_app. split; [exact Hall|]. constructor; [exact Hs|constructor].
Qed.

End PointInvariant.

(** X6: every isoline returned has at least one point, and each of its
    points (h, bary) was recorded on a halfedge h of a regular face that is
    no boundary loop, with bary the parameter the crossing test reported on
    the edge of h: no point is ever recorded inside a singular face. *)
Theorem isoline_points_come_from_regular_faces
        (D : Type) (S : Scalar D) (mesh : SurfaceMesh)
        (stripeValues : Corner -> D) (stripesIndices fieldIndices : Face -> Z)
        (isolines : list (Isoline D)) :
  extractIsolinesFromStripePattern mesh stripeValues stripesIndices
                                   fieldIndices
  = Returned isolines ->
  Forall (fun i =>
            barycenters i <> []
            /\ Forall (fun p =>
                         crossesModulo2Pi
                           (stripeValues (corner (fst p)))
                           (stripeValues (corner (heNext mesh (fst p))))
                         = Some (snd p)
                         /\ fromRegularFace mesh stripesIndices
                                            fieldIndices p)
                      (barycenters i))
         isolines.
Proof.
  intros Hret.
  pose proof (extracted_isolines_wellFormed _ _ _ _ Hret) as Hwf.
  assert (Hreg : Forall (fun i =>
                           Forall (fun p =>
                                     crossesModulo2Pi
                                       (stripeValues (corner (fst p)))
                                       (stripeValues
                                          (corner (heNext mesh (fst p))))
                                     = Some (snd p)
                                     /\ fromRegularFace mesh stripesIndices
                                                        fieldIndices p)
                                  (barycenters i)) isolines).
  { eapply faceLoop_P; [| apply incl_refl | exact Hret | constructor].
    intros g h bary Hbl Hsi Hfi Hin Hc. split; [exact Hc|].
    exists g. auto. }
  rewrite Forall_forall in *. intros i Hi.
  split; [exact (proj1 (Hwf i Hi)) | exact (Hreg i Hi)].
Qed.

Lemma isoline_points_come_from_regular_faces_witness :
  let values := cornerValues [0.1; 6.3; 0.1]%float 0%float in
  let isolines :=
    [ {| barycenters := [(0, 0.0027120472290989659%float);
                         (1, 0.99728795277090099%float)];
         open := true |} ] in
  extractIsolinesFromStripePattern singleTriangle values noIndex noIndex
  = Returned isolines
  /\ Forall (fun i =>
               barycenters i <> []
               /\ Forall (fun p =>
                            crossesModulo2Pi
                              (values (corner (fst p)))
                              (values (corner (heNext singleTriangle (fst p))))
                            = Some (snd p)
                            /\ fromRegularFace singleTriangle noIndex
                                               noIndex p)
                         (barycenters i))
            isolines.
Proof.
  split; [vm_compute; reflexivity|].
  apply (@isoline_points_come_from_regular_faces float binary64
           singleTriangle (cornerValues [0.1; 6.3; 0.1]%float 0%float)
           noIndex noIndex).
  vm_compute. reflexivity.
Defined.

Section SeedProperties.
Context {D : Type} `{Scalar D}.
Variable mesh : SurfaceMesh.
Variable stripeValues : Corner -> D.
Variable stripesIndices fieldIndices : Face -> Z.

Lemma faceLoop_length (fs : list Face) (vis : FaceFlags)
      (isolines result : list (Isoline D)) :
  faceLoop mesh stripeValues stripesIndices fieldIndices fs vis isolines
  = Returned result ->
  List.length result <= List.length isolines + List.length fs.
Proof.
  revert vis isolines.
  induction fs as [|f fs IH]; intros vis isolines; simpl.
  - intros [= <-]. lia.
  - destruct (vis f || _ || _).
    + intros Hloop. apply IH in Hloop. lia.
    + destruct (traceFace _ _ _ _ _ _) as [s|]; [|discriminate].
      destruct (2 <? nbOfPieces s)%Z; [discriminate|].
      intros Hloop. apply IH in Hloop.
      destruct (0 <? nbOfPieces s)%Z; [rewrite length_app in Hloop; simpl in Hloop|];
        lia.
Qed.

Lemma faceLoop_all_singular (fs : list Face) (vis : FaceFlags)
      (isolines : list (Isoline D)) :
  (forall f, In f fs ->
             stripesIndices f <> 0%Z \/ fieldIndices f <> 0%Z) ->
  faceLoop mesh stripeValues stripesIndices fieldIndices fs vis isolines
  = Returned isolines.
Proof.
  induction fs as [|f fs IH]; intros Hsing; simpl; [reflexivity|].
  assert (Hskip : vis f || negb (stripesIndices f =? 0)%Z
                  || negb (fieldIndices f =? 0)%Z = true).
  { destruct (Hsing f (or_introl eq_refl)) as [Hs|Hf].
    - apply Z.eqb_neq in Hs. rewrite Hs. simpl.
      now rewrite orb_true_r.
    - apply Z.eqb_neq in Hf. rewrite Hf. simpl.
      now rewrite orb_true_r. }
  rewrite Hskip. apply IH. intros g Hg. apply Hsing. now right.
Qed.

Lemma seedLoop_no_crossing (f : Face) (hes : list Halfedge) (s : Seed D) :
  (forall h, In h hes ->
             crossesModulo2Pi (stripeValues (corner h))
                              (stripeValues (corner (heNext mesh h)))
             = None) ->
  seedLoop mesh stripeValues stripesIndices fieldIndices f s hes = Some s.
Proof.
  induction hes as [|h hes IH]; intros Hnone; simpl; [reflexivity|].
  unfold seedStep. rewrite (Hnone h (or_introl eq_refl)).
  apply IH. intros g Hg. apply Hnone. now right.
Qed.

Lemma faceLoop_no_crossing (fs : list Face) (vis : FaceFlags)
      (isolines : list (Isoline D)) :
  (forall f h, In f fs -> In h (adjacentHalfedges mesh f) ->
               crossesModulo2Pi (stripeValues (corner h))
                                (stripeValues (corner (heNext mesh h)))
               = None) ->
  faceLoop mesh stripeValues stripesIndices fieldIndices fs vis isolines
  = Returned isolines.
Proof.
  revert vis. induction fs as [|f fs IH]; intros vis Hnone; simpl;
    [reflexivity|].
  assert (Hrest : forall g h, In g fs -> In h (adjacentHalfedges mesh g) ->
                    crossesModulo2Pi (stripeValues (corner h))
                      (stripeValues (corner (heNext mesh h))) = None)
    by (intros g h Hg; apply Hnone; now right).
  destruct (vis f || _ || _); [now apply IH|].
  unfold traceFace.
  rewrite seedLoop_no_crossing
    by (intros h Hh; apply (Hnone f h); [now left | exact Hh]).
  simpl. now apply IH.
Qed.

Lemma seedLoop_pieces (f : Face) (hes : list Halfedge) (s s' : Seed D) :
  seedLoop mesh stripeValues stripesIndices fieldIndices f s hes = Some s' ->
  (nbOfPieces s <= nbOfPieces s'
   <= nbOfPieces s + Z.of_nat (List.length hes))%Z.
Proof.
  revert s. induction hes as [|h hes IH]; intros s; simpl.
  - intros [= <-]. lia.
  - destruct (seedStep _ _ _ _ _ _ _) as [s1|] eqn:E; [|discriminate].
    intros Hloop. apply IH in Hloop.
    assert (Hstep : (nbOfPieces s <= nbOfPieces s1 <= nbOfPieces s + 1)%Z).
    { unfold seedStep in E.
      destruct (crossesModulo2Pi _ _).
      - destruct (trace _ _ _ _ _ _ _); [|discriminate].
        injection E as <-. simpl. lia.
      - injection E as <-. lia. }
    lia.
Qed.

Lemma seedExits_bounds (fs : list Face) (vis : FaceFlags) :
  incl fs (faces mesh) ->
  Forall (fun p =>
            fst p < nFaces mesh
            /\ stripesIndices (fst p) = 0%Z /\ fieldIndices (fst p) = 0%Z
            /\ (0 <= snd p
                <= Z.of_nat (List.length (adjacentHalfedges mesh (fst p))))%Z)
         (seedExits mesh stripeValues stripesIndices fieldIndices fs vis).
Proof.
  revert vis. induction fs as [|f fs IH]; intros vis Hincl; simpl;
    [constructor|].
  assert (Hincl' : incl fs (faces mesh))
    by (intros x Hx; apply Hincl; now right).
  destruct (vis f || negb (stripesIndices f =? 0)%Z
            || negb (fieldIndices f =? 0)%Z) eqn:Eskip; [now apply IH|].
  apply orb_false_iff in Eskip as [Eskip Hfi].
  apply orb_false_iff in Eskip as [_ Hsi].
  apply negb_false_iff, Z.eqb_eq in Hsi, Hfi.
  destruct (traceFace _ _ _ _ _ _) as [s|] eqn:Eseed; [|constructor].
  constructor.
  - simpl. split.
    + assert (Hin : In f (faces mesh)) by (apply Hincl; now left).
      unfold faces in Hin. apply in_seq in Hin. lia.
    + split; [exact Hsi|]. split; [exact Hfi|].
      unfold traceFace in Eseed. apply seedLoop_pieces in Eseed.
      simpl in Eseed. lia.
  - destruct (2 <? nbOfPieces s)%Z; [constructor | now apply IH].
Qed.

Local Abbreviation carries := (carriesCrossing mesh stripeValues).
Local Abbreviation exits := (crossingCount mesh stripeValues).

(** Every halfedge of the seed face that passes the crossing test adds
    one to [nbOfPieces], and nothing else does. *)
Lemma seedLoop_count (f : Face) (hes : list Halfedge) (s s' : Seed D) :
  seedLoop mesh stripeValues stripesIndices fieldIndices f s hes = Some s' ->
  nbOfPieces s'
  = (nbOfPieces s
     + Z.of_nat (List.length (filter carries hes)))%Z.
Proof.
  revert s. induction hes as [|h hes IH]; intros s; simpl.
  - intros [= <-]. lia.
  - destruct (seedStep _ _ _ _ _ _ _) as [s1|] eqn:E; [|discriminate].
    intros Hloop. apply IH in Hloop. rewrite Hloop. clear Hloop.
    unfold seedStep in E.
    destruct (crossesModulo2Pi (stripeValues (corner h))
                (stripeValues (corner (heNext mesh h)))) as [bary|] eqn:Ec.
    + assert (Hc : carries h = true)
        by (unfold carriesCrossing; now rewrite Ec).
      rewrite Hc.
      destruct (trace _ _ _ _ _ _ _); [|discriminate].
      injection E as <-. simpl List.length. cbn [nbOfPieces]. lia.
    + assert (Hc : carries h = false)
        by (unfold carriesCrossing; now rewrite Ec).
      rewrite Hc. injection E as <-. reflexivity.
Qed.

Lemma traceFace_count (f : Face) (vis : FaceFlags) (s : Seed D) :
  traceFace mesh stripeValues stripesIndices fieldIndices f vis = Some s ->
  nbOfPieces s = exits f.
Proof.
  unfold traceFace. intros Hloop. apply seedLoop_count in Hloop.
  rewrite Hloop. reflexivity.
Qed.

Lemma seedExits_count (fs : list Face) (vis : FaceFlags) :
  Forall (fun p => snd p = exits (fst p))
         (seedExits mesh stripeValues stripesIndices fieldIndices fs vis).
Proof.
  revert vis. induction fs as [|f fs IH]; intros vis; simpl; [constructor|].
  destruct (vis f || _ || _); [apply IH|].
  destruct (traceFace _ _ _ _ _ _) as [s|] eqn:Eseed; [|constructor].
  constructor.
  - simpl. now apply traceFace_count with (vis := vis).
  - destruct (2 <? nbOfPieces s)%Z; [constructor | apply IH].
Qed.

Lemma filter_length_zero (A : Type) (p : A -> bool) (l : list A) :
  List.length (filter p l) = 0 -> forall a, In a l -> p a = false.
Proof.
  induction l as [|b l IH]; simpl; [tauto|].
  destruct (p b) eqn:Eb; [discriminate|].
  intros Hlen a [<- | Hin]; [exact Eb | now apply IH].
Qed.

Lemma filter_length_full (A : Type) (p : A -> bool) (l : list A) :
  List.length (filter p l) = List.length l ->
  forall a, In a l -> p a = true.
Proof.
  induction l as [|b l IH]; simpl; [tauto|].
  pose proof (List.filter_length_le p l) as Hle.
  destruct (p b) eqn:Eb; simpl.
  - intros Hlen a [<- | Hin]; [exact Eb | apply IH; [lia | exact Hin]].
  - intros Hlen. lia.
Qed.

Lemma crossingCount_zero (f : Face) :
  exits f = 0%Z ->
  forall h, In h (adjacentHalfedges mesh f) ->
    crossesModulo2Pi (stripeValues (corner h))
                     (stripeValues (corner (heNext mesh h))) = None.
Proof.
  unfold crossingCount, crossingHalfedges. intros Hzero h Hin.
  assert (Hc : carries h = false)
    by (eapply filter_length_zero; [|exact Hin]; lia).
  unfold carriesCrossing in Hc.
  now destruct (crossesModulo2Pi _ _).
Qed.

(** The loop over the faces from [a] on throws at the first regular face
    with more than two crossing halfedges when no face before it is
    regular with a crossing: such faces leave nothing marked but
    themselves. *)
Lemma faceLoop_throws_at (n a : nat) (vis : FaceFlags)
      (isolines : list (Isoline D)) (f : Face) :
  (forall g, vis g = true -> g < a) ->
  a <= f < a + n ->
  stripesIndices f = 0%Z -> fieldIndices f = 0%Z ->
  (2 < exits f)%Z ->
  (forall g, a <= g < f ->
             stripesIndices g <> 0%Z \/ fieldIndices g <> 0%Z
             \/ exits g = 0%Z) ->
  faceLoop mesh stripeValues stripesIndices fieldIndices (seq a n) vis
           isolines
  = Thrown branchingError.
Proof.
  revert a vis isolines.
  induction n as [|n IH]; intros a vis isolines Hvis Hrange Hsi Hfi Hcount
                                 Hbefore; [lia|].
  cbn [seq faceLoop].
  destruct (Nat.eq_dec a f) as [->|Hne].
  - assert (Hv : vis f = false).
    { destruct (vis f) eqn:Ev; [|reflexivity].
      apply Hvis in Ev. lia. }
    rewrite Hv, Hsi, Hfi. cbn [Z.eqb negb orb].
    destruct (traceFace_returns mesh stripeValues stripesIndices
                fieldIndices f vis) as [s Hs].
    rewrite Hs. rewrite (traceFace_count _ _ Hs).
    apply Z.ltb_lt in Hcount. now rewrite Hcount.
  - assert (Hrest : forall vis' isolines',
               (forall g, vis' g = true -> g < S a) ->
               faceLoop mesh stripeValues stripesIndices fieldIndices
                        (seq (S a) n) vis' isolines'
               = Thrown branchingError).
    { intros vis' isolines' Hvis'.
      apply IH; try assumption; [lia|].
      intros g Hg. apply Hbefore. lia. }
    destruct (vis a || negb (stripesIndices a =? 0)%Z
              || negb (fieldIndices a =? 0)%Z) eqn:Eskip.
    + apply Hrest. intros g Hg. apply Hvis in Hg. lia.
    + apply orb_false_iff in Eskip as [Eskip Hfa].
      apply orb_false_iff in Eskip as [_ Hsa].
      apply negb_false_iff, Z.eqb_eq in Hsa, Hfa.
      destruct (Hbefore a) as [Habs|[Habs|Hzero]]; [lia| contradiction..|].
      unfold traceFace.
      rewrite seedLoop_no_crossing by (now apply crossingCount_zero).
      cbn [nbOfPieces seedVisited Z.ltb Z.compare].
      apply Hrest. intros g. unfold setFlag.
      destruct (Nat.eqb_spec g a) as [->|_]; [lia|].
      intros Hg. apply Hvis in Hg. lia.
Qed.

(** Either some seed has more than two crossing halfedges and the loop
    throws, or none has and the loop returns. *)
Lemma faceLoop_outcome_count (fs : list Face) (vis : FaceFlags)
      (isolines : list (Isoline D)) :
  (Exists (fun p => (2 < exits (fst p))%Z)
          (seedExits mesh stripeValues stripesIndices fieldIndices fs vis)
   /\ faceLoop mesh stripeValues stripesIndices fieldIndices fs vis isolines
      = Thrown branchingError)
  \/ (Forall (fun p => (exits (fst p) <= 2)%Z)
             (seedExits mesh stripeValues stripesIndices fieldIndices fs vis)
      /\ exists isolines',
          faceLoop mesh stripeValues stripesIndices fieldIndices fs vis
                   isolines
          = Returned isolines').
Proof.
  pose proof (seedExits_count fs vis) as Hcount.
  rewrite Forall_forall in Hcount.
  destruct (faceLoop_outcome mesh stripeValues stripesIndices fieldIndices
              fs vis isolines) as [[Hex Hth] | [Hall Hret]].
  - left. split; [|exact Hth].
    apply Exists_exists in Hex as (p & Hin & Hp).
    apply Exists_exists. exists p. split; [exact Hin|].
    now rewrite <- (Hcount p Hin).
  - right. split; [|exact Hret].
    rewrite Forall_forall in *. intros p Hin.
    rewrite <- (Hcount p Hin). now apply Hall.
Qed.

(** What holds of every seed and of the number of exits counted for it. *)
Lemma seedExits_triangle (fs : list Face) (vis : FaceFlags) :
  incl fs (faces mesh) ->
  Forall (fun p =>
            fst p < nFaces mesh
            /\ stripesIndices (fst p) = 0%Z /\ fieldIndices (fst p) = 0%Z
            /\ snd p = exits (fst p)
            /\ (0 <= snd p
                <= Z.of_nat (List.length (adjacentHalfedges mesh (fst p))))%Z
            /\ (List.length (adjacentHalfedges mesh (fst p)) = 3 ->
                (2 < snd p)%Z ->
                forall h, In h (adjacentHalfedges mesh (fst p)) ->
                  crossesModulo2Pi (stripeValues (corner h))
                                   (stripeValues (corner (heNext mesh h)))
                  <> None))
         (seedExits mesh stripeValues stripesIndices fieldIndices fs vis).
Proof.
  intros Hincl.
  pose proof (seedExits_bounds vis Hincl) as Hb.
  pose proof (seedExits_count fs vis) as Hc.
  rewrite Forall_forall in *. intros p Hin.
  destruct (Hb p Hin) as (Hface & Hsi & Hfi & Hrange).
  specialize (Hc p Hin).
  repeat (split; [assumption|]).
  intros Hthree Hmore h Hh.
  assert (Hfull : carries h = true).
  { eapply filter_length_full; [|exact Hh].
    pose proof (List.filter_length_le carries
                  (adjacentHalfedges mesh (fst p))) as Hle.
    assert (Hlen : snd p
                   = Z.of_nat (List.length
                                 (filter carries
                                    (adjacentHalfedges mesh (fst p)))))
      by exact Hc.
    lia. }
  unfold carriesCrossing in Hfull.
  destruct (crossesModulo2Pi _ _); [discriminate | discriminate].
Qed.

End SeedProperties.

(* ================================================================== *)
(** * The fatal error of isoline extraction, and the exits of a seed *)
(* ================================================================== *)

(** C3, as amended: the number of exits counted for a seed face is the
    number of its halfedges on whose edge the crossing test succeeds.  When
    a seed face has more than two of them the extraction throws, and the
    diagnostic is always the same fixed message, which names no face; when
    every seed face has at most two the extraction returns its isolines.
    No other outcome exists.  In particular the extraction returns when no
    regular face of the mesh has more than two such halfedges, and it
    throws when a regular face has more than two and no face before it is
    regular with a crossing (that face is then a seed). *)
Theorem extraction_throws_iff_branching
        (D : Type) (S : Scalar D) (mesh : SurfaceMesh)
        (stripeValues : Corner -> D) (stripesIndices fieldIndices : Face -> Z) :
  Forall (fun p => snd p = crossingCount mesh stripeValues (fst p))
         (exitsPerSeed mesh stripeValues stripesIndices fieldIndices)
  /\ ((Exists (fun p => (2 < crossingCount mesh stripeValues (fst p))%Z)
              (exitsPerSeed mesh stripeValues stripesIndices fieldIndices)
       /\ extractIsolinesFromStripePattern mesh stripeValues stripesIndices
                                            fieldIndices
          = Thrown "Isolines should only branch out on singularities")
      \/ (Forall (fun p => (crossingCount mesh stripeValues (fst p) <= 2)%Z)
                 (exitsPerSeed mesh stripeValues stripesIndices fieldIndices)
          /\ exists isolines,
              extractIsolinesFromStripePattern mesh stripeValues
                                               stripesIndices fieldIndices
              = Returned isolines))
  /\ ((forall f, f < nFaces mesh ->
                 stripesIndices f = 0%Z -> fieldIndices f = 0%Z ->
                 (crossingCount mesh stripeValues f <= 2)%Z) ->
      exists isolines,
        extractIsolinesFromStripePattern mesh stripeValues stripesIndices
                                         fieldIndices
        = Returned isolines)
  /\ (forall f, f < nFaces mesh ->
                stripesIndices f = 0%Z -> fieldIndices f = 0%Z ->
                (2 < crossingCount mesh stripeValues f)%Z ->
                (forall g, g < f ->
                           stripesIndices g <> 0%Z \/ fieldIndices g <> 0%Z
                           \/ crossingCount mesh stripeValues g = 0%Z) ->
                extractIsolinesFromStripePattern mesh stripeValues
                                                 stripesIndices fieldIndices
                = Thrown "Isolines should only branch out on singularities").
Proof.
  split; [apply seedExits_count|].
  split; [apply faceLoop_outcome_count|].
  split.
  - intros Hregular.
    destruct (faceLoop_outcome_count mesh stripeValues stripesIndices
                fieldIndices (faces mesh) (fun _ => false) [])
      as [[Hex _] | [_ Hret]]; [|exact Hret].
    exfalso. apply Exists_exists in Hex as (p & Hin & Hp).
    pose proof (@seedExits_bounds D S mesh stripeValues stripesIndices
                  fieldIndices (faces mesh) (fun _ => false)
                  (@incl_refl _ _)) as Hb.
    rewrite Forall_forall in Hb.
    destruct (Hb p Hin) as (Hface & Hsi & Hfi & _).
    specialize (Hregular (fst p) Hface Hsi Hfi). lia.
  - intros f Hf Hsi Hfi Hcount Hbefore.
    unfold extractIsolinesFromStripePattern, faces.
    apply faceLoop_throws_at with (f := f); try assumption.
    + discriminate.
    + lia.
    + intros g Hg. apply Hbefore. lia.
Qed.

(** C3, the claim as stated fails: on the two-triangle mesh the seed with
    three exits is face 0 for one input and face 1 for another, and the
    diagnostic thrown is the same, so it does not identify the face. *)
Lemma diagnostic_does_not_identify_face :
  let valuesA := cornerValues [0.1; 6.3; 12.6; 1; 1; 1]%float 0%float in
  let valuesB := cornerValues [1; 1; 1; 0.1; 6.3; 12.6]%float 0%float in
  exitsPerSeed twoTriangles valuesA noIndex noIndex = [(0, 3%Z)]
  /\ exitsPerSeed twoTriangles valuesB noIndex noIndex
     = [(0, 0%Z); (1, 3%Z)]
  /\ extractIsolinesFromStripePattern twoTriangles valuesA noIndex noIndex
     = extractIsolinesFromStripePattern twoTriangles valuesB noIndex noIndex
  /\ extractIsolinesFromStripePattern twoTriangles valuesA noIndex noIndex
     = Thrown "Isolines should only branch out on singularities"
  /\ crossingHalfedges twoTriangles valuesA 0 = [0; 1; 2]
  /\ crossingHalfedges twoTriangles valuesB 0 = []
  /\ crossingHalfedges twoTriangles valuesB 1 = [3; 4; 5].
Proof. vm_compute. repeat split. Qed.

(** X7: the extraction returns at most one isoline per face of the mesh. *)
Theorem at_most_one_isoline_per_face
        (D : Type) (S : Scalar D) (mesh : SurfaceMesh)
        (stripeValues : Corner -> D) (stripesIndices fieldIndices : Face -> Z)
        (isolines : list (Isoline D)) :
  extractIsolinesFromStripePattern mesh stripeValues stripesIndices
                                   fieldIndices
  = Returned isolines ->
  List.length isolines <= nFaces mesh.
Proof.
  intros Hret. apply faceLoop_length in Hret.
  unfold faces in Hret. rewrite length_seq in Hret. exact Hret.
Qed.

Lemma at_most_one_isoline_per_face_witness :
  let values := cornerValues [0.1; 7; 0.1; 0.1; 7; 0.1]%float 0%float in
  let isolines :=
    [ {| barycenters := [(0, 0.10388618736527735%float);
                         (1, 0.89611381263472267%float);
                         (4, 0.89611381263472267%float)];
         open := true |} ] in
  extractIsolinesFromStripePattern twoTriangles values noIndex noIndex
  = Returned isolines
  /\ List.length isolines <= nFaces twoTriangles.
Proof.
  split; [vm_compute; reflexivity|].
  apply (@at_most_one_isoline_per_face float binary64 twoTriangles
           (cornerValues [0.1; 7; 0.1; 0.1; 7; 0.1]%float 0%float)
           noIndex noIndex).
  vm_compute. reflexivity.
Defined.

(** X8: when every face of the mesh is singular (nonzero stripe index or
    nonzero field index), no face is a seed: the extraction returns no
    isoline and throws nothing, whatever the stripe values. *)
Theorem no_isoline_when_all_faces_singular
        (D : Type) (S : Scalar D) (mesh : SurfaceMesh)
        (stripeValues : Corner -> D) (stripesIndices fieldIndices : Face -> Z) :
  (forall f, f < nFaces mesh ->
             stripesIndices f <> 0%Z \/ fieldIndices f <> 0%Z) ->
  extractIsolinesFromStripePattern mesh stripeValues stripesIndices
                                   fieldIndices
  = Returned [].
Proof.
  intros Hsing. apply faceLoop_all_singular.
  intros f Hf. apply Hsing. unfold faces in Hf. apply in_seq in Hf. lia.
Qed.

Lemma no_isoline_when_all_faces_singular_witness :
  (forall f, f < nFaces twoTriangles ->
             (fun _ : Face => 1%Z) f <> 0%Z \/ noIndex f <> 0%Z)
  /\ extractIsolinesFromStripePattern twoTriangles
       (cornerValues [0.1; 6.3; 12.6; 0.1; 6.3; 12.6]%float 0%float)
       (fun _ => 1%Z) noIndex
     = Returned [].
Proof.
  assert (Hsing : forall f, f < nFaces twoTriangles ->
                    (fun _ : Face => 1%Z) f <> 0%Z \/ noIndex f <> 0%Z)
    by (intros f _; left; discriminate).
  split; [exact Hsing|].
  exact (@no_isoline_when_all_faces_singular float binary64 twoTriangles
           (cornerValues [0.1; 6.3; 12.6; 0.1; 6.3; 12.6]%float 0%float)
           (fun _ => 1%Z) noIndex Hsing).
Defined.

(** X9: when no edge of any face carries a crossing, the extraction
    returns no isoline. *)
Theorem no_isoline_without_crossing
        (D : Type) (S : Scalar D) (mesh : SurfaceMesh)
        (stripeValues : Corner -> D) (stripesIndices fieldIndices : Face -> Z) :
  (forall f h, f < nFaces mesh -> In h (adjacentHalfedges mesh f) ->
               crossesModulo2Pi (stripeValues (corner h))
                                (stripeValues (corner (heNext mesh h)))
               = None) ->
  extractIsolinesFromStripePattern mesh stripeValues stripesIndices
                                   fieldIndices
  = Returned [].
Proof.
  intros Hnone. apply faceLoop_no_crossing.
  intros f h Hf. apply Hnone. unfold faces in Hf. apply in_seq in Hf. lia.
Qed.

Lemma no_isoline_without_crossing_witness :
  let values := cornerValues [0.1; 6.2; 0.1]%float 0%float in
  (forall f h, f < nFaces singleTriangle ->
               In h (adjacentHalfedges singleTriangle f) ->
               crossesModulo2Pi (values (corner h))
                                (values (corner (heNext singleTriangle h)))
               = None)
  /\ extractIsolinesFromStripePattern singleTriangle values noIndex noIndex
     = Returned [].
Proof.
  assert (Hnone : forall f h, f < nFaces singleTriangle ->
                    In h (adjacentHalfedges singleTriangle f) ->
                    crossesModulo2Pi
                      (cornerValues [0.1; 6.2; 0.1]%float 0%float (corner h))
                      (cornerValues [0.1; 6.2; 0.1]%float 0%float
                         (corner (heNext singleTriangle h)))
                    = None).
  { intros f h Hf Hin. destruct f as [|f]; [|simpl in Hf; lia].
    vm_compute in Hin.
    destruct Hin as [<- | [<- | [<- | []]]]; vm_compute; reflexivity. }
  split; [exact Hnone|].
  exact (@no_isoline_without_crossing float binary64 singleTriangle
           (cornerValues [0.1; 6.2; 0.1]%float 0%float) noIndex noIndex
           Hnone).
Defined.

(** X10: every seed face the extraction works through is a regular face
    of the mesh; the number of exits counted for it is the number of its
    halfedges on whose edge the crossing test succeeds, hence lies between
    0 and the number of its halfedges; on a triangle, more than two exits
    (the fatal error) mean that the test succeeds on all three edges. *)
Theorem seed_exits_bounded
        (D : Type) (S : Scalar D) (mesh : SurfaceMesh)
        (stripeValues : Corner -> D) (stripesIndices fieldIndices : Face -> Z) :
  Forall (fun p =>
            fst p < nFaces mesh
            /\ stripesIndices (fst p) = 0%Z /\ fieldIndices (fst p) = 0%Z
            /\ snd p = crossingCount mesh stripeValues (fst p)
            /\ (0 <= snd p
                <= Z.of_nat (List.length (adjacentHalfedges mesh (fst p))))%Z
            /\ (List.length (adjacentHalfedges mesh (fst p)) = 3 ->
                (2 < snd p)%Z ->
                forall h, In h (adjacentHalfedges mesh (fst p)) ->
                  crossesModulo2Pi (stripeValues (corner h))
                                   (stripeValues (corner (heNext mesh h)))
                  <> None))
         (exitsPerSeed mesh stripeValues stripesIndices fieldIndices).
Proof.
  apply seedExits_triangle. apply incl_refl.
Qed.

(* ================================================================== *)
(** * Further properties of the polyline extraction *)
(* ================================================================== *)

Section PolylineShape.
Context {D : Type} `{Scalar D}.
Variable mesh : SurfaceMesh.
Variable vertexPositions : Vertex -> Vector3 D.

Lemma pointLoop_edges (start : Z) (n : nat) (pts : list (Halfedge * D))
      (s : Soup D) :
  polyEdges (fold_left (pointStep mesh vertexPositions start n) pts s)
  = polyEdges s
    ++ chain (index s)
         (Z.to_nat (Z.max 0 (Z.min (Z.of_nat (List.length pts))
                                   (start + Z.of_nat n - 1 - index s)))).
Proof.
  revert s. induction pts as [|p pts IH]; intros s.
  - simpl. replace (Z.to_nat _) with 0%nat by lia. simpl.
    now rewrite app_nil_r.
  - cbn [fold_left]. rewrite IH.
    assert (Hidx : index (pointStep mesh vertexPositions start n s p)
                   = (index s + 1)%Z) by reflexivity.
    assert (Hedg : polyEdges (pointStep mesh vertexPositions start n s p)
                   = if (index s <? start + Z.of_nat n - 1)%Z
                     then polyEdges s ++ [(index s, (index s + 1)%Z)]
                     else polyEdges s) by reflexivity.
    rewrite Hidx, Hedg.
    destruct (index s <? start + Z.of_nat n - 1)%Z eqn:E.
    + apply Z.ltb_lt in E. rewrite <- app_assoc. f_equal.
      replace (Z.to_nat
                 (Z.max 0 (Z.min (Z.of_nat (List.length (p :: pts)))
                                 (start + Z.of_nat n - 1 - index s))))
        with (S (Z.to_nat
                   (Z.max 0 (Z.min (Z.of_nat (List.length pts))
                                   (start + Z.of_nat n - 1 - (index s + 1))))))
        by (simpl List.length; lia).
      reflexivity.
    + apply Z.ltb_ge in E.
      replace (Z.to_nat
                 (Z.max 0 (Z.min (Z.of_nat (List.length pts))
                                 (start + Z.of_nat n - 1 - (index s + 1)))))
        with 0%nat by lia.
      replace (Z.to_nat
                 (Z.max 0 (Z.min (Z.of_nat (List.length (p :: pts)))
                                 (start + Z.of_nat n - 1 - index s))))
        with 0%nat by lia.
      reflexivity.
Qed.

Lemma isolineStep_edges (s : Soup D) (i : Isoline D) :
  barycenters i <> [] ->
  polyEdges (isolineStep mesh vertexPositions s i)
  = polyEdges s ++ isolineEdges (index s) i
  /\ index (isolineStep mesh vertexPositions s i) = (index s + size i)%Z.
Proof.
  intros Hne. unfold isolineStep, isolineEdges, size.
  destruct (pointLoop_spec mesh vertexPositions (index s)
              (List.length (barycenters i)) (barycenters i) s)
    as (_ & Hi & _).
  pose proof (pointLoop_edges (index s) (List.length (barycenters i))
                (barycenters i) s) as He.
  assert (Hlen : 1 <= List.length (barycenters i)).
  { destruct (barycenters i); [contradiction | simpl; lia]. }
  replace (Z.to_nat
             (Z.max 0
                (Z.min (Z.of_nat (List.length (barycenters i)))
                   (index s + Z.of_nat (List.length (barycenters i)) - 1
                    - index s))))
    with (List.length (barycenters i) - 1) in He by lia.
  destruct (open i); cbn [negb polyEdges index].
  - rewrite He, Hi, app_nil_r. auto.
  - rewrite He, Hi, <- app_assoc. auto.
Qed.

Lemma isolineLoop_edges (isolines : list (Isoline D)) (s : Soup D) :
  Forall (fun i => barycenters i <> []) isolines ->
  polyEdges (fold_left (isolineStep mesh vertexPositions) isolines s)
  = polyEdges s ++ edgeList (index s) isolines.
Proof.
  revert s. induction isolines as [|i isolines IH]; intros s Hall.
  - simpl. now rewrite app_nil_r.
  - inversion Hall as [|? ? Hne Hrest]; subst.
    cbn [fold_left edgeList]. rewrite (IH _ Hrest).
    destruct (isolineStep_edges s i Hne) as [-> ->].
    now rewrite <- app_assoc.
Qed.

Lemma chain_bounds (i : Z) (m : nat) (e : Z * Z) :
  In e (chain i m) ->
  (i <= fst e < i + Z.of_nat m)%Z /\ snd e = (fst e + 1)%Z.
Proof.
  revert i. induction m as [|m IH]; intros i; simpl; [tauto|].
  intros [<- | Hin]; simpl; [lia|].
  apply IH in Hin. lia.
Qed.

Lemma edgeList_bounds (isolines : list (Isoline D)) (start : Z) (e : Z * Z) :
  Forall (fun i => barycenters i <> []) isolines ->
  In e (edgeList start isolines) ->
  (start <= fst e < start + totalBarycenters isolines)%Z
  /\ (start <= snd e < start + totalBarycenters isolines)%Z.
Proof.
  revert start. induction isolines as [|i isolines IH]; intros start Hall;
    simpl; [tauto|].
  inversion Hall as [|? ? Hne Hrest]; subst.
  assert (Hlen : (1 <= size i)%Z).
  { unfold size. destruct (barycenters i); [contradiction | simpl; lia]. }
  assert (Htot : (0 <= totalBarycenters isolines)%Z).
  { clear. induction isolines as [|j js IHj]; simpl; [lia|].
    unfold size at 1. lia. }
  intros Hin. apply in_app_or in Hin as [Hin | Hin].
  - unfold isolineEdges in Hin. apply in_app_or in Hin as [Hin | Hin].
    + apply chain_bounds in Hin. unfold size in *. lia.
    + destruct (open i); [contradiction|].
      destruct Hin as [<- | []]. simpl. lia.
  - apply (IH _ Hrest) in Hin. lia.
Qed.

End PolylineShape.

(** X11: the polylines are the isolines laid end to end: the points are
    the points of the barycenters of all isolines in order, and the edges
    are, isoline by isoline, the edges between consecutive points followed,
    for a closed isoline, by the edge from its last point to its first. *)
Theorem polylines_are_chained_isolines
        (D : Type) (S : Scalar D) (mesh : SurfaceMesh)
        (vertexPositions : Vertex -> Vector3 D)
        (values : Corner -> D) (stripesIndices fieldIndices : Face -> Z)
        (isolines : list (Isoline D)) :
  extractIsolinesFromStripePattern mesh values stripesIndices fieldIndices
  = Returned isolines ->
  extractPolylinesFromStripePattern mesh vertexPositions values
                                    stripesIndices fieldIndices
  = Returned (map (isoPoint mesh vertexPositions)
                  (flat_map (@barycenters D) isolines),
              edgeList 0 isolines).
Proof.
  intros Hret. unfold extractPolylinesFromStripePattern. rewrite Hret.
  f_equal.
  assert (Hne : Forall (fun i => barycenters i <> []) isolines).
  { eapply Forall_impl; [|exact (extracted_isolines_wellFormed _ _ _ _ Hret)].
    now intros i [Hne _]. }
  rewrite (surjective_pairing (polylines mesh vertexPositions isolines)).
  rewrite polylines_points. f_equal.
  unfold polylines. cbn [snd].
  now rewrite (@isolineLoop_edges D S mesh vertexPositions isolines _ Hne).
Qed.

Lemma polylines_are_chained_isolines_witness :
  let values := cornerValues [0.1; 6.3; 0.1]%float 0%float in
  let isolines :=
    [ {| barycenters := [(0, 0.0027120472290989659%float);
                         (1, 0.99728795277090099%float)];
         open := true |} ] in
  extractIsolinesFromStripePattern singleTriangle values noIndex noIndex
  = Returned isolines
  /\ extractPolylinesFromStripePattern singleTriangle trianglePositions
       values noIndex noIndex
     = Returned (map (isoPoint singleTriangle trianglePositions)
                     (flat_map (@barycenters float) isolines),
                 edgeList 0 isolines).
Proof.
  split; [vm_compute; reflexivity|].
  apply (@polylines_are_chained_isolines float binary64 singleTriangle
           trianglePositions (cornerValues [0.1; 6.3; 0.1]%float 0%float)
           noIndex noIndex).
  vm_compute. reflexivity.
Defined.

(** X12: every edge the polyline extraction returns joins two points of
    the point array: both of its indices are at least 0 and below the
    number of points. *)
Theorem polyline_edges_index_points
        (D : Type) (S : Scalar D) (mesh : SurfaceMesh)
        (vertexPositions : Vertex -> Vector3 D)
        (values : Corner -> D) (stripesIndices fieldIndices : Face -> Z)
        (pts : list (Vector3 D)) (es : list (Z * Z)) :
  extractPolylinesFromStripePattern mesh vertexPositions values
                                    stripesIndices fieldIndices
  = Returned (pts, es) ->
  Forall (fun e =>
            (0 <= fst e < Z.of_nat (List.length pts))%Z
            /\ (0 <= snd e < Z.of_nat (List.length pts))%Z) es.
Proof.
  unfold extractPolylinesFromStripePattern.
  destruct (extractIsolinesFromStripePattern mesh values stripesIndices
              fieldIndices) as [isolines| |] eqn:Eiso; try discriminate.
  intros Hret.
  assert (Hq : polylines mesh vertexPositions isolines = (pts, es))
    by congruence.
  assert (Hne : Forall (fun i => barycenters i <> []) isolines).
  { eapply Forall_impl; [|exact (extracted_isolines_wellFormed _ _ _ _ Eiso)].
    now intros i [Hne _]. }
  destruct (@isolineLoop_spec D S mesh vertexPositions isolines
              {| points := []; polyEdges := []; index := 0 |} Hne)
    as (Hp & _).
  pose proof (@isolineLoop_edges D S mesh vertexPositions isolines
                {| points := []; polyEdges := []; index := 0 |} Hne) as He.
  unfold polylines in Hq. injection Hq as Hpts Hes.
  rewrite <- Hes, <- Hpts, He, Hp. cbn [polyEdges points app List.length].
  apply Forall_forall. intros e Hin.
  apply (@edgeList_bounds D isolines 0 e Hne) in Hin. lia.
Qed.

Lemma polyline_edges_index_points_witness :
  extractPolylinesFromStripePattern singleTriangle trianglePositions
    (cornerValues [0.1; 6.3; 0.1]%float 0%float) noIndex noIndex
  = Returned triangleRun
  /\ Forall (fun e =>
               (0 <= fst e < Z.of_nat (List.length (fst triangleRun)))%Z
               /\ (0 <= snd e < Z.of_nat (List.length (fst triangleRun)))%Z)
            (snd triangleRun).
Proof.
  split; [vm_compute; reflexivity|].
  apply (@polyline_edges_index_points float binary64 singleTriangle
           trianglePositions (cornerValues [0.1; 6.3; 0.1]%float 0%float)
           noIndex noIndex).
  vm_compute. reflexivity.
Defined.

(* ================================================================== *)
(** * Further properties of the matrices *)
(* ================================================================== *)

Section MassMatrix.
Context {D : Type} `{Scalar D}.
Variable geometry : Geometry D.

(** The triplets of the mass matrix for a list of vertices. *)
Local Abbreviation massTriplets :=
  (flat_map (fun v =>
               [ tr (2 * Z.of_nat (vertexIndices geometry v))
                    (2 * Z.of_nat (vertexIndices geometry v))
                    (vertexDualAreas geometry v);
                 tr (2 * Z.of_nat (vertexIndices geometry v) + 1)
                    (2 * Z.of_nat (vertexIndices geometry v) + 1)
                    (vertexDualAreas geometry v) ])).

Lemma valuesAt_app_sparse (r c : Z) (ts us : list (Triplet D)) :
  valuesAt r c (ts ++ us) = valuesAt r c ts ++ valuesAt r c us.
Proof. unfold valuesAt. now rewrite filter_app, map_app. Qed.

Lemma mass_off_diagonal (vs : list Vertex) (r c : Z) :
  r <> c -> valuesAt r c (massTriplets vs) = [].
Proof.
  intros Hne. induction vs as [|v vs IH]; [reflexivity|].
  cbn [flat_map]. rewrite valuesAt_app_sparse, IH, app_nil_r.
  unfold valuesAt, tripletAt, tr. cbn [filter fst snd].
  destruct (Z.eqb_spec (2 * Z.of_nat (vertexIndices geometry v)) r);
    destruct (Z.eqb_spec (2 * Z.of_nat (vertexIndices geometry v)) c);
    destruct (Z.eqb_spec (2 * Z.of_nat (vertexIndices geometry v) + 1) r);
    destruct (Z.eqb_spec (2 * Z.of_nat (vertexIndices geometry v) + 1) c);
    cbn [andb map]; first [reflexivity | exfalso; lia].
Qed.

Lemma mass_channels (vs : list Vertex) (k : Z) :
  valuesAt (2 * k) (2 * k) (massTriplets vs)
  = valuesAt (2 * k + 1) (2 * k + 1) (massTriplets vs).
Proof.
  induction vs as [|v vs IH]; [reflexivity|].
  cbn [flat_map]. rewrite !valuesAt_app_sparse, IH. f_equal.
  unfold valuesAt, tripletAt, tr. cbn [filter fst snd].
  destruct (Z.eqb_spec (2 * Z.of_nat (vertexIndices geometry v)) (2 * k));
    destruct (Z.eqb_spec (2 * Z.of_nat (vertexIndices geometry v) + 1)
                         (2 * k + 1));
    destruct (Z.eqb_spec (2 * Z.of_nat (vertexIndices geometry v))
                         (2 * k + 1));
    destruct (Z.eqb_spec (2 * Z.of_nat (vertexIndices geometry v) + 1)
                         (2 * k));
    cbn [andb map]; first [reflexivity | exfalso; lia].
Qed.

Lemma mass_other_vertices (vs : list Vertex) (i : nat) (b : Z) :
  (b = 0 \/ b = 1)%Z ->
  (forall v, In v vs -> vertexIndices geometry v <> i) ->
  valuesAt (2 * Z.of_nat i + b) (2 * Z.of_nat i + b) (massTriplets vs) = [].
Proof.
  intros Hb Hother. induction vs as [|v vs IH]; [reflexivity|].
  cbn [flat_map]. rewrite valuesAt_app_sparse, IH, app_nil_r
    by (intros w Hw; apply Hother; now right).
  assert (Hv : vertexIndices geometry v <> i)
    by (apply Hother; now left).
  unfold valuesAt, tripletAt, tr. cbn [filter fst snd].
  destruct (Z.eqb_spec (2 * Z.of_nat (vertexIndices geometry v))
                       (2 * Z.of_nat i + b));
    destruct (Z.eqb_spec (2 * Z.of_nat (vertexIndices geometry v) + 1)
                         (2 * Z.of_nat i + b));
    cbn [andb map]; first [reflexivity | exfalso; lia].
Qed.

Lemma mass_own_vertex (vs : list Vertex) (v : Vertex) (b : Z) :
  (b = 0 \/ b = 1)%Z ->
  NoDup vs -> In v vs ->
  (forall u w, In u vs -> In w vs ->
               vertexIndices geometry u = vertexIndices geometry w -> u = w) ->
  valuesAt (2 * Z.of_nat (vertexIndices geometry v) + b)
           (2 * Z.of_nat (vertexIndices geometry v) + b) (massTriplets vs)
  = [vertexDualAreas geometry v].
Proof.
  intros Hb Hnd Hin Hinj. induction vs as [|u vs IH]; [contradiction|].
  inversion Hnd as [|? ? Hnotin Hnd']; subst.
  cbn [flat_map]. rewrite valuesAt_app_sparse.
  destruct Hin as [-> | Hin].
  - rewrite mass_other_vertices; [|exact Hb|].
    + unfold valuesAt, tripletAt, tr. cbn [filter fst snd].
      destruct (Z.eqb_spec (2 * Z.of_nat (vertexIndices geometry v))
                           (2 * Z.of_nat (vertexIndices geometry v) + b));
        destruct (Z.eqb_spec (2 * Z.of_nat (vertexIndices geometry v) + 1)
                             (2 * Z.of_nat (vertexIndices geometry v) + b));
        cbn [andb map app]; first [reflexivity | exfalso; lia].
    + intros w Hw Heq. apply Hnotin.
      rewrite <- (Hinj w v); auto; [now right | now left].
  - rewrite IH; auto.
    + assert (Hu : vertexIndices geometry u <> vertexIndices geometry v).
      { intros Heq. apply Hnotin.
        rewrite (Hinj u v); auto; [now left | now right]. }
      unfold valuesAt, tripletAt, tr. cbn [filter fst snd].
      destruct (Z.eqb_spec (2 * Z.of_nat (vertexIndices geometry u))
                           (2 * Z.of_nat (vertexIndices geometry v) + b));
        destruct (Z.eqb_spec (2 * Z.of_nat (vertexIndices geometry u) + 1)
                             (2 * Z.of_nat (vertexIndices geometry v) + b));
        cbn [andb map app]; first [reflexivity | exfalso; lia].
    + intros a c Ha Hc. apply Hinj; now right.
Qed.

End MassMatrix.

(** X13: the mass matrix is square of size twice the number of vertices,
    it is diagonal, and for every k its two channels 2k and 2k+1 carry the
    same value. *)
Theorem mass_matrix_diagonal
        (D : Type) (S : Scalar D) (geometry : Geometry D) :
  let M := computeRealVertexMassMatrix geometry in
  rows M = (2 * Z.of_nat (nVertices (mesh geometry)))%Z
  /\ cols M = (2 * Z.of_nat (nVertices (mesh geometry)))%Z
  /\ (forall r c, r <> c -> coeff M r c = fromZ 0)
  /\ (forall k, coeff M (2 * k) (2 * k)
                = coeff M (2 * k + 1) (2 * k + 1)).
Proof.
  unfold computeRealVertexMassMatrix. cbn [rows cols coeff setFromTriplets].
  split; [reflexivity|]. split; [reflexivity|]. split.
  - intros r c Hne. fold (valuesAt r c
      (flat_map (fun v =>
                   [ tr (2 * Z.of_nat (vertexIndices geometry v))
                        (2 * Z.of_nat (vertexIndices geometry v))
                        (vertexDualAreas geometry v);
                     tr (2 * Z.of_nat (vertexIndices geometry v) + 1)
                        (2 * Z.of_nat (vertexIndices geometry v) + 1)
                        (vertexDualAreas geometry v) ])
                (vertices (mesh geometry)))).
    now rewrite mass_off_diagonal.
  - intros k.
    pose proof (mass_channels geometry (vertices (mesh geometry)) k) as Hk.
    unfold valuesAt in Hk. now rewrite Hk.
Qed.

(** X14: when the vertex indices are pairwise distinct, the mass matrix
    holds the dual area of each vertex at both diagonal positions of that
    vertex. *)
Theorem mass_matrix_holds_dual_areas
        (D : Type) (S : Scalar D) (geometry : Geometry D) (v : Vertex) :
  (forall u w, u < nVertices (mesh geometry) ->
               w < nVertices (mesh geometry) ->
               vertexIndices geometry u = vertexIndices geometry w -> u = w) ->
  v < nVertices (mesh geometry) ->
  let i := Z.of_nat (vertexIndices geometry v) in
  coeff (computeRealVertexMassMatrix geometry) (2 * i) (2 * i)
  = vertexDualAreas geometry v
  /\ coeff (computeRealVertexMassMatrix geometry) (2 * i + 1) (2 * i + 1)
     = vertexDualAreas geometry v.
Proof.
  intros Hinj Hv i.
  assert (Hin : In v (vertices (mesh geometry)))
    by (unfold vertices; apply in_seq; lia).
  assert (Hinj' : forall u w,
             In u (vertices (mesh geometry)) ->
             In w (vertices (mesh geometry)) ->
             vertexIndices geometry u = vertexIndices geometry w -> u = w).
  { intros u w Hu Hw. unfold vertices in Hu, Hw.
    apply in_seq in Hu, Hw. apply Hinj; lia. }
  pose proof (@mass_own_vertex D geometry (vertices (mesh geometry)) v 0
                (or_introl eq_refl) (seq_NoDup _ _) Hin Hinj') as H0.
  pose proof (@mass_own_vertex D geometry (vertices (mesh geometry)) v 1
                (or_intror eq_refl) (seq_NoDup _ _) Hin Hinj') as H1.
  unfold computeRealVertexMassMatrix. cbn [coeff setFromTriplets].
  unfold valuesAt in H0, H1. subst i.
  rewrite Z.add_0_r in H0. rewrite H0, H1. split; reflexivity.
Qed.

Lemma mass_matrix_holds_dual_areas_witness :
  let geometry : Geometry float := {|
    mesh := singleTriangle;
    edgeLengths := fun _ => 1%float;
    vertexIndices := fun v => v;
    halfedgeVectorsInVertex := fun _ => {| x2 := 1%float; y2 := 0%float |};
    transportVectorsAlongHalfedge :=
      fun _ => {| x2 := 1%float; y2 := 0%float |};
    halfedgeCotanWeights := fun _ => 0.5%float;
    vertexDualAreas := fun v => match v with
                                | 0 => 0.25%float
                                | 1 => 0.5%float
                                | _ => 0.75%float
                                end
  |} in
  coeff (computeRealVertexMassMatrix geometry) (2 * 1) (2 * 1) = 0.5%float
  /\ coeff (computeRealVertexMassMatrix geometry) (2 * 1 + 1) (2 * 1 + 1)
     = 0.5%float.
Proof.
  intros geometry.
  apply (@mass_matrix_holds_dual_areas float binary64 geometry 1).
  - intros u w _ _ Heq. exact Heq.
  - simpl. lia.
Defined.

Section EnergySparsity.
Context {D : Type} `{Trig D}.
Variable geometry : Geometry D.
Variable directionField : Vertex -> Vector2 D.
Variable branchIndices : Face -> Z.
Variable frequencies : Vertex -> D.

Local Abbreviation edgeBlock := (edgeBlock geometry).

Lemma edge_block_outside (i j r c : Z) (w x y x' y' : D) :
  ~ ((r = i \/ r = (i + 1)%Z \/ r = j \/ r = (j + 1)%Z)
     /\ (c = i \/ c = (i + 1)%Z \/ c = j \/ c = (j + 1)%Z)) ->
  valuesAt r c
    [ tr (i + 0) (i + 0) w; tr (i + 1) (i + 1) w;
      tr (j + 0) (j + 0) w; tr (j + 1) (j + 1) w;
      tr (i + 0) (j + 0) x; tr (i + 1) (j + 0) y;
      tr (j + 0) (i + 0) x; tr (j + 0) (i + 1) y;
      tr (i + 0) (j + 1) y'; tr (i + 1) (j + 1) x';
      tr (j + 1) (i + 0) y'; tr (j + 1) (i + 1) x' ]
  = [].
Proof.
  intros Hout. rewrite !valuesAt_cons, !valuesAt_nil.
  unfold tripletAt, tr. cbn [fst snd].
  destruct (Z.eqb_spec (i + 0) r); destruct (Z.eqb_spec (i + 1) r);
    destruct (Z.eqb_spec (j + 0) r); destruct (Z.eqb_spec (j + 1) r);
    destruct (Z.eqb_spec (i + 0) c); destruct (Z.eqb_spec (i + 1) c);
    destruct (Z.eqb_spec (j + 0) c); destruct (Z.eqb_spec (j + 1) c);
    cbn [andb app];
    first [reflexivity | exfalso; apply Hout; lia].
Qed.

Lemma edgeTriplets_outside_block (e : Edge) (ts : list (Triplet D))
      (r c : Z) :
  edgeTriplets geometry directionField branchIndices frequencies e = Some ts ->
  ~ (edgeBlock e r /\ edgeBlock e c) ->
  valuesAt r c ts = [].
Proof.
  unfold edgeTriplets.
  destruct (computeOmega _ _ _ _ _ _) as [[omega fr]|]; [|discriminate].
  destruct (fr crossesSheet) as [crosses|]; [|discriminate].
  intros [= <-] Hout. apply edge_block_outside. exact Hout.
Qed.

Lemma edgeLoop_outside_blocks (es : list Edge) (acc ts : list (Triplet D))
      (r c : Z) :
  edgeLoop geometry directionField branchIndices frequencies es acc = Some ts ->
  (forall e, In e es -> ~ (edgeBlock e r /\ edgeBlock e c)) ->
  valuesAt r c ts = valuesAt r c acc.
Proof.
  revert acc. induction es as [|e es IH]; intros acc; cbn [edgeLoop].
  - now intros [= <-].
  - destruct (edgeTriplets _ _ _ _ e) as [us|] eqn:E; [|discriminate].
    intros Hloop Hout. rewrite (IH _ Hloop).
    + rewrite valuesAt_app.
      assert (Hus : valuesAt r c us = [])
        by (eapply edgeTriplets_outside_block;
            [exact E | apply Hout; now left]).
      rewrite Hus. apply app_nil_r.
    + intros e' He'. apply Hout. now right.
Qed.

End EnergySparsity.

(** X15: two matrix indices that no edge writes to together are not
    coupled by the energy matrix: its coefficient there is the zero of an
    empty position plus the regularization term alone. *)
Theorem energy_matrix_couples_only_edges
        (D : Type) (S : Scalar D) (T : Trig D)
        (geometry : Geometry D) (directionField : Vertex -> Vector2 D)
        (branchIndices : Face -> Z) (frequencies : Vertex -> D) (r c : Z) :
  (forall e, e < nEdges (mesh geometry) ->
             ~ (edgeBlock geometry e r /\ edgeBlock geometry e c)) ->
  exists A,
    buildVertexEnergyMatrix geometry directionField branchIndices frequencies
    = Some A
    /\ coeff A r c
       = add (fromZ 0)
             (mul shift
                  (coeff (setIdentity
                            (2 * Z.of_nat (nVertices (mesh geometry)))
                            (2 * Z.of_nat (nVertices (mesh geometry))))
                         r c)).
Proof.
  intros Hout. unfold buildVertexEnergyMatrix.
  destruct (edgeLoop_returns geometry directionField branchIndices
              frequencies (edges (mesh geometry)) []) as [ts Hts].
  rewrite Hts. eexists. split; [reflexivity|].
  cbn [coeff addMatrix scaleMatrix setFromTriplets].
  fold (valuesAt r c ts).
  assert (Hrc : valuesAt r c ts = valuesAt r c [])
    by (eapply edgeLoop_outside_blocks; [exact Hts|];
        intros e He; apply Hout; unfold edges in He; apply in_seq in He; lia).
  rewrite Hrc. reflexivity.
Qed.

Lemma energy_matrix_couples_only_edges_witness :
  (forall e, e < nEdges (mesh flatQuad) ->
             ~ (edgeBlock flatQuad e 0 /\ edgeBlock flatQuad e 6))
  /\ (0 <= 0 < 2 * Z.of_nat (nVertices (mesh flatQuad)))%Z
  /\ (0 <= 6 < 2 * Z.of_nat (nVertices (mesh flatQuad)))%Z
  /\ exists A,
       buildVertexEnergyMatrix flatQuad perpendicularField noIndex
                               (fun _ => 1%R)
       = Some A
       /\ coeff A 0 6
          = add (fromZ 0)
                (mul shift
                     (coeff (setIdentity
                               (2 * Z.of_nat (nVertices (mesh flatQuad)))
                               (2 * Z.of_nat (nVertices (mesh flatQuad))))
                            0 6)).
Proof.
  assert (Hout : forall e, e < nEdges (mesh flatQuad) ->
                   ~ (edgeBlock flatQuad e 0 /\ edgeBlock flatQuad e 6)).
  { intros e He [Hr Hc]. unfold edgeBlock in Hr, Hc. simpl in He.
    assert (Hcases : e = 0 \/ e = 1 \/ e = 2 \/ e = 3 \/ e = 4) by lia.
    destruct Hcases as [-> | [-> | [-> | [-> | ->]]]];
      simpl in Hr, Hc; lia. }
  split; [exact Hout|].
  split; [simpl; lia|]. split; [simpl; lia|].
  exact (@energy_matrix_couples_only_edges R exactR exactTrig flatQuad
           perpendicularField noIndex (fun _ => 1%R) 0 6 Hout).
Defined.

Section ExactEnergy.
Local Open Scope R_scope.

Variable geometry : Geometry R.
Variable directionField : Vertex -> Vector2 R.
Variable branchIndices : Face -> Z.
Variable frequencies : Vertex -> R.

Hypothesis all_singular : forall f, branchIndices f <> 0%Z.

Lemma cotanWeight_all_singular (e : Edge) :
  cotanWeight geometry branchIndices e = 0.
Proof.
  unfold cotanWeight.
  repeat match goal with
         | |- context [(branchIndices ?f =? 0)%Z] =>
             destruct (Z.eqb_spec (branchIndices f) 0) as [Habs|_];
             [exfalso; exact (all_singular Habs)|]
         end.
  destruct (negb (edgeIsBoundary (mesh geometry) e)); reflexivity.
Qed.

Lemma edgeTriplets_all_zero (e : Edge) (ts : list (Triplet R)) :
  edgeTriplets geometry directionField branchIndices frequencies e = Some ts ->
  Forall (fun t => snd t = 0) ts.
Proof.
  unfold edgeTriplets.
  destruct (computeOmega _ _ _ _ _ _) as [[omega fr]|]; [|discriminate].
  destruct (fr crossesSheet) as [crosses|]; [|discriminate].
  intros [= <-]. rewrite cotanWeight_all_singular.
  unfold tr, scale2, timesEq, fromAngle.
  destruct crosses; cbn [x2 y2 snd mul opp fromZ exactR];
    repeat constructor; cbn [snd]; ring.
Qed.

Lemma edgeLoop_all_zero (es : list Edge) (acc ts : list (Triplet R)) :
  edgeLoop geometry directionField branchIndices frequencies es acc = Some ts ->
  Forall (fun t => snd t = 0) acc -> Forall (fun t => snd t = 0) ts.
Proof.
  revert acc. induction es as [|e es IH]; intros acc; cbn [edgeLoop].
  - now intros [= <-].
  - destruct (edgeTriplets _ _ _ _ e) as [us|] eqn:E; [|discriminate].
    intros Hloop Hacc. apply (IH _ Hloop). apply Forall_app. split; auto.
    now apply edgeTriplets_all_zero with (e := e).
Qed.

Lemma sumValues_zeros (vs : list R) : Forall (fun v => v = 0) vs -> sumValues vs = 0.
Proof.
  intros Hall. destruct vs as [|v vs]; [reflexivity|].
  inversion Hall as [|? ? Hv Hvs]; subst. simpl.
  induction vs as [|w vs IH]; [reflexivity|].
  inversion Hvs as [|? ? Hw Hvs']; subst. simpl.
  rewrite Rplus_0_l. apply IH; auto.
Qed.

Lemma energy_all_singular_coeff (ts : list (Triplet R)) (r c : Z) :
  Forall (fun t => snd t = 0) ts ->
  sumValues (map snd (filter (tripletAt r c) ts)) = 0.
Proof.
  intros Hall. apply sumValues_zeros. apply Forall_map.
  apply Forall_forall. intros t Ht. apply filter_In in Ht as [Ht _].
  rewrite Forall_forall in Hall. now apply Hall.
Qed.

End ExactEnergy.

Section ExactEnergyTheorems.
Local Open Scope R_scope.

(** X16: in exact arithmetic, when every face is singular (no branch index
    is 0) every edge weight is zero and the energy matrix is exactly the
    regularization: 1e-4 on the diagonal and 0 elsewhere. *)
Theorem energy_matrix_of_singular_mesh
        (geometry : Geometry R) (directionField : Vertex -> Vector2 R)
        (branchIndices : Face -> Z) (frequencies : Vertex -> R) :
  (forall f, branchIndices f <> 0%Z) ->
  exists A,
    buildVertexEnergyMatrix geometry directionField branchIndices frequencies
    = Some A
    /\ forall r c,
         coeff A r c
         = if ((r =? c) && (0 <=? r)
               && (r <? 2 * Z.of_nat (nVertices (mesh geometry))))%Z
           then 1 / 10000 else 0.
Proof.
  intros Hsing. unfold buildVertexEnergyMatrix.
  destruct (edgeLoop_returns geometry directionField branchIndices
              frequencies (edges (mesh geometry)) []) as [ts Hts].
  rewrite Hts. eexists. split; [reflexivity|]. intros r c.
  cbn [coeff addMatrix scaleMatrix setFromTriplets setIdentity].
  rewrite (energy_all_singular_coeff (ts := ts)).
  - unfold shift. cbn [add mul div fromZ exactR].
    destruct (r =? c)%Z; destruct (0 <=? r)%Z;
      destruct (r <? 2 * Z.of_nat (nVertices (mesh geometry)))%Z;
      cbn [andb]; field.
  - eapply edgeLoop_all_zero; [exact Hsing | exact Hts | constructor].
Qed.

Lemma energy_matrix_of_singular_mesh_witness :
  exists A,
    buildVertexEnergyMatrix flatGeometry perpendicularField
                            (fun _ => 1%Z) (fun _ => 1)
    = Some A
    /\ forall r c,
         coeff A r c
         = if ((r =? c) && (0 <=? r)
               && (r <? 2 * Z.of_nat (nVertices (mesh flatGeometry))))%Z
           then 1 / 10000 else 0.
Proof.
  apply (@energy_matrix_of_singular_mesh flatGeometry perpendicularField
           (fun _ => 1%Z) (fun _ => 1)).
  intros f. discriminate.
Defined.

(** X17: in exact arithmetic the one-form of an edge of length l >= 0 is
    at most (l/2) (|fI| + |fJ|) in absolute value. *)
Theorem omega_bounded_by_length_and_frequencies
        (geometry : Geometry R) (directionField : Vertex -> Vector2 R)
        (frequencies : Vertex -> R) (e : Edge) (p : Local) (fr : Frame) :
  0 <= edgeLengths geometry e ->
  exists omega fr',
    computeOmega geometry directionField frequencies e (Some p) fr
    = Some (omega, fr')
    /\ Rabs omega
       <= edgeLengths geometry e / 2
          * (Rabs (frequencies (firstVertex (mesh geometry) e))
             + Rabs (frequencies (secondVertex (mesh geometry) e))).
Proof.
  intros Hl. unfold computeOmega. eexists. eexists.
  split; [reflexivity|].
  cbn [add sub mul div fromZ exactR cos exactTrig].
  match goal with
  | |- Rabs (_ * (?fI * Rtrigo_def.cos ?a + ?fJ * Rtrigo_def.cos ?b)) <= _ =>
      pose proof (COS_bound a) as Ha; pose proof (COS_bound b) as Hb;
      set (ca := Rtrigo_def.cos a) in *; set (cb := Rtrigo_def.cos b) in *
  end.
  rewrite Rabs_mult. rewrite (Rabs_pos_eq (edgeLengths geometry e / 2)) by lra.
  apply Rmult_le_compat_l; [lra|].
  eapply Rle_trans; [apply Rabs_triang|].
  rewrite !Rabs_mult.
  assert (Hca : Rabs ca <= 1) by (apply Rabs_le; lra).
  assert (Hcb : Rabs cb <= 1) by (apply Rabs_le; lra).
  pose proof (Rabs_pos (frequencies (firstVertex (mesh geometry) e))).
  pose proof (Rabs_pos (frequencies (secondVertex (mesh geometry) e))).
  nra.
Qed.

Lemma omega_bounded_by_length_and_frequencies_witness :
  exists omega fr',
    computeOmega flatGeometry perpendicularField (fun _ => 1) 0%nat
                 (Some crossesSheet) noLocals
    = Some (omega, fr')
    /\ Rabs omega
       <= edgeLengths flatGeometry 0%nat / 2
          * (Rabs ((fun _ : Vertex => 1)
                     (firstVertex (mesh flatGeometry) 0%nat))
             + Rabs ((fun _ : Vertex => 1)
                       (secondVertex (mesh flatGeometry) 0%nat))).
Proof.
  apply (@omega_bounded_by_length_and_frequencies flatGeometry
           perpendicularField (fun _ => 1) 0%nat crossesSheet noLocals).
  simpl. lra.
Defined.

(** X18: in exact arithmetic the one-form is linear in the frequencies:
    multiplying every frequency by the same factor multiplies the value
    returned by that factor and leaves the crosses-sheets flag as it is.
    This is what the rescaling of the frequencies by 2 pi in
    [computeStripePattern] does to each edge. *)
Theorem omega_linear_in_frequencies
        (geometry : Geometry R) (directionField : Vertex -> Vector2 R)
        (frequencies : Vertex -> R) (factor : R)
        (e : Edge) (p : Local) (fr : Frame) :
  exists omega fr',
    computeOmega geometry directionField frequencies e (Some p) fr
    = Some (omega, fr')
    /\ computeOmega geometry directionField
                    (fun v => factor * frequencies v) e (Some p) fr
       = Some (factor * omega, fr').
Proof.
  unfold computeOmega. eexists. eexists. split; [reflexivity|].
  f_equal. f_equal. cbn [add sub mul div fromZ exactR]. ring.
Qed.

End ExactEnergyTheorems.

(* ================================================================== *)
(** * Principal curvature directions of a flat mesh *)
(* ================================================================== *)

Section FlatCurvature.
Local Open Scope R_scope.

Variable geometry : ExtrinsicGeometry R.
Hypothesis flat : forall e, edgeDihedralAngles geometry e = 0.

Lemma curvatureLoop_flat (hes : list Halfedge) (angle : R) :
  fst (fold_left (curvatureStep geometry) hes
                 ({| x2 := 0; y2 := 0 |}, angle))
  = {| x2 := 0; y2 := 0 |}.
Proof.
  revert angle. induction hes as [|he hes IH]; intros angle; [reflexivity|].
  cbn [fold_left].
  replace (curvatureStep geometry ({| x2 := 0; y2 := 0 |}, angle) he)
    with ({| x2 := 0; y2 := 0 |},
          angle + cornerScaledAngles geometry (corner he)).
  - apply IH.
  - unfold curvatureStep, add2, divScalar, timesEq, neg2, fromAngle.
    cbn [fst snd x2 y2 add mul div opp fromZ exactR]. rewrite flat.
    f_equal. f_equal; field.
Qed.

Lemma principalDirection_flat (v : Vertex) :
  principalDirection geometry v = {| x2 := 0; y2 := 0 |}.
Proof. unfold principalDirection. apply curvatureLoop_flat. Qed.

Lemma curvatureDirections_flat (vs : list Vertex)
      (data : Vertex -> Vector2 R) (v : Vertex) :
  data v = {| x2 := 0; y2 := 0 |} ->
  fold_left (fun d u => setAt d u (principalDirection geometry u)) vs data v
  = {| x2 := 0; y2 := 0 |}.
Proof.
  revert data. induction vs as [|u vs IH]; intros data Hdata; [exact Hdata|].
  cbn [fold_left]. apply IH. unfold setAt.
  destruct (v =? u); [apply principalDirection_flat | exact Hdata].
Qed.

End FlatCurvature.

(** X19: in exact arithmetic, on a mesh none of whose edges is bent (every
    dihedral angle is 0) the principal curvature direction computed at
    every vertex is the zero vector. *)
Theorem flat_mesh_has_no_principal_direction
        (geometry : ExtrinsicGeometry R) (v : Vertex) :
  (forall e, edgeDihedralAngles geometry e = 0%R) ->
  computeVertexPrincipalCurvatureDirections geometry v
  = {| x2 := 0%R; y2 := 0%R |}.
Proof.
  intros Hflat. unfold computeVertexPrincipalCurvatureDirections.
  now apply curvatureDirections_flat.
Qed.

Lemma flat_mesh_has_no_principal_direction_witness :
  computeVertexPrincipalCurvatureDirections flatExtrinsic 1
  = {| x2 := 0%R; y2 := 0%R |}.
Proof.
  apply (@flat_mesh_has_no_principal_direction flatExtrinsic 1).
  intros e. reflexivity.
Defined.
